(** * ansen-portfolio: the portfolio application's logic, embedded and verified

    The application is one React module (the project repository hook
    [useProjects], the identity hook [useSupabaseAuth], the drafting tool
    [generateProjectDescription], [debounce], and the derivations of [App]:
    [allTags], [filteredProjects], [handleToggleManager], the seeding effect).

    Conventions of the embedding:
    - a JavaScript string is a [string]; a character stands for one UTF-16
      code unit, and the model covers the code units 0..255;
    - a JavaScript object used as a bag of properties is a [gmap string _];
      a missing key is [undefined];
    - React state is a record, a setter call is a record update, and an
      asynchronous call to a collaborator (data service, text API) is a
      function of the answer the collaborator gives;
    - timers are entries of an explicit event loop. *)

From Stdlib Require Import Ascii NArith.
From stdpp Require Import base list sorting strings gmap.

(** ** JavaScript strings *)

Module Js.

(** [!s] for a string: only the empty string is falsy. *)
Definition truthy (s : string) : bool :=
  match s with EmptyString => false | String _ _ => true end.

(** [!v] for a value that may be [null]/[undefined] or a string. *)
Definition truthy_opt (v : option string) : bool :=
  match v with None => false | Some s => truthy s end.

(** [a || b] on possibly-missing strings. *)
Definition or_else (a b : option string) : option string :=
  if truthy_opt a then a else b.

(** WhiteSpace and LineTerminator code units below 256, the ones
    [String.prototype.trim] strips: TAB, LF, VT, FF, CR, SP, NBSP. *)
Definition isWhiteSpace (c : ascii) : bool :=
  match N_of_ascii c with
  | 9 | 10 | 11 | 12 | 13 | 32 | 160 => true
  | _ => false
  end%N.

Fixpoint trimStart (s : string) : string :=
  match s with
  | EmptyString => EmptyString
  | String c s' => if isWhiteSpace c then trimStart s' else s
  end.

Fixpoint trimEnd (s : string) : string :=
  match s with
  | EmptyString => EmptyString
  | String c s' =>
      match trimEnd s' with
      | EmptyString => if isWhiteSpace c then EmptyString else String c EmptyString
      | t => String c t
      end
  end.

Definition trim (s : string) : string := trimEnd (trimStart s).

(** [s.split(sep)] for a one-character separator: never the empty list. *)
Fixpoint split (sep : ascii) (s : string) : list string :=
  match s with
  | EmptyString => [EmptyString]
  | String c s' =>
      if bool_decide (c = sep) then EmptyString :: split sep s'
      else match split sep s' with
           | [] => [String c EmptyString]
           | tok :: toks => String c tok :: toks
           end
  end.

(** [toLowerCase] on one code unit: A-Z and the accented capitals
    (192..222 except the multiplication sign 215) move up by 32. *)
Definition lowerUnit (c : ascii) : ascii :=
  let n := N_of_ascii c in
  if ((65 <=? n) && (n <=? 90) ||
      (192 <=? n) && (n <=? 222) && negb (n =? 215))%N
  then ascii_of_N (n + 32) else c.

Fixpoint toLowerCase (s : string) : string :=
  match s with
  | EmptyString => EmptyString
  | String c s' => String (lowerUnit c) (toLowerCase s')
  end.

Fixpoint startsWith (s p : string) {struct p} : bool :=
  match p, s with
  | EmptyString, _ => true
  | String _ _, EmptyString => false
  | String b p', String a s' => bool_decide (a = b) && startsWith s' p'
  end.

(** [s.includes(sub)]: [sub] occurs in [s] at some position. *)
Fixpoint includes (s sub : string) : bool :=
  startsWith s sub ||
  match s with
  | EmptyString => false
  | String _ s' => includes s' sub
  end.

(** The insertion-ordered [Set] of strings: [add] keeps the first
    occurrence, [Array.from] lists in insertion order. *)
Definition set_add (x : string) (s : list string) : list string :=
  if bool_decide (x ∈ s) then s else s ++ [x].

(** [Array.prototype.sort()] without a comparator on strings: ascending
    order of code units. *)
Definition sort (l : list string) : list string := merge_sort String.le l.

End Js.

(** ** Data model *)

(** [new Date(v)]: only the argument matters here. *)
Inductive JsDate := NewDate (src : option string).

(** A row of the [projects] table as the data service returns it: column
    name to text. *)
Abbreviation Row := (gmap string string).

(** A project of the in-memory list, [{ id: p.id, ...p, createdAt: new
    Date(p.created_at) }]: the columns of the row ([id: p.id] is repeated by
    the spread) and the added [createdAt], which shadows a column of that
    name. *)
Record Project := mkProject {
  fields : Row;
  createdAt : JsDate;
}.

(** [project.technologies] *)
Definition technologies (p : Project) : option string :=
  fields p !! "technologies"%string.

Definition ofRow (p : Row) : Project :=
  {| fields := p; createdAt := NewDate (p !! "created_at"%string) |}.

(** ** Presentation layer: tag derivation and tag filter *)

(** The body of [project.technologies?.split(',').forEach(tech => ...)]. *)
Definition addTechs (tags : list string) (project : Project) : list string :=
  match technologies project with
  | None => tags
  | Some text =>
      foldl (fun tags tech =>
               if Js.truthy (Js.trim tech) then Js.set_add (Js.trim tech) tags
               else tags)
            tags (Js.split ","%char text)
  end.

(** [allTags]: collect into a [Set], then [Array.from(tags).sort()]. *)
Definition allTags (projects : list Project) : list string :=
  Js.sort (foldl addTechs [] projects).

(** The callback of [projects.filter]:
    [project.technologies?.toLowerCase().includes(lowerCaseActiveTag)];
    [undefined] when the project has no technology text, which [filter]
    reads as false. *)
Definition matchesTag (lowerCaseActiveTag : string) (project : Project) : bool :=
  match technologies project with
  | None => false
  | Some text => Js.includes (Js.toLowerCase text) lowerCaseActiveTag
  end.

(** [filteredProjects]: [activeTag] is [null] or a string. *)
Definition filteredProjects (projects : list Project)
    (activeTag : option string) : list Project :=
  match activeTag with
  | None => projects
  | Some tag =>
      if negb (Js.truthy tag) then projects
      else
        let lowerCaseActiveTag := Js.toLowerCase tag in
        List.filter (matchesTag lowerCaseActiveTag) projects
  end.

(** [handleTagClick] of [TagFilter]: the value passed to [setActiveTag]. *)
Definition handleTagClick (activeTag : option string) (tag : string)
    : option string :=
  if bool_decide (activeTag = Some tag) then None else Some tag.

(** ** The hosted data service, as the client sees it *)

Module Supabase.

Inductive Verb :=
| Select (columns : string)
| Insert (row : Row)
| Update (changes : Row)
| Delete.

(** What the query builder has accumulated when it is awaited. *)
Record Request := mkRequest {
  table : string;
  verb : Verb;
  filters : list (string * string);      (* [.eq(column, value)], in order *)
  ordering : option (string * bool);     (* [.order(column, { ascending })] *)
}.

Definition from (t : string) : string := t.

Definition start (v : Verb) (t : string) : Request :=
  {| table := t; verb := v; filters := []; ordering := None |}.

Definition select (columns : string) := start (Select columns).
Definition insert (row : Row) := start (Insert row).
Definition update (changes : Row) := start (Update changes).
Definition delete := start Delete.

Definition eq (column value : string) (r : Request) : Request :=
  {| table := table r; verb := verb r;
     filters := filters r ++ [(column, value)]; ordering := ordering r |}.

Definition order (column : string) (ascending : bool) (r : Request) : Request :=
  {| table := table r; verb := verb r;
     filters := filters r; ordering := Some (column, ascending) |}.

(** The outcome of awaiting a request: the promise resolves to
    [{ data, error }] or rejects. *)
Inductive Response :=
| Resolved (data : option (list Row)) (error : option string)
| Rejected (reason : string).

End Supabase.

(** The service handle: how the service answers each request.  The module
    level [supabase] is [None] when the URL or the key is not configured. *)
Abbreviation Client := (Supabase.Request → Supabase.Response).

Record Config := mkConfig {
  VITE_APP_OWNER_ID : option string;
  VITE_SUPABASE_URL : option string;
  VITE_SUPABASE_ANON_KEY : option string;
}.

(** [import.meta.env.VITE_APP_OWNER_ID || null] *)
Definition VERCEL_OWNER_ID (cfg : Config) : option string :=
  Js.or_else (VITE_APP_OWNER_ID cfg) None.

(** [(SUPABASE_URL && SUPABASE_ANON_KEY) ? createClient(...) : null] *)
Definition supabase (cfg : Config) (createClient : string → string → Client)
    : option Client :=
  match VITE_SUPABASE_URL cfg, VITE_SUPABASE_ANON_KEY cfg with
  | Some url, Some key =>
      if Js.truthy url && Js.truthy key then Some (createClient url key) else None
  | _, _ => None
  end.

(** ** Identity resolver: [useSupabaseAuth] *)

Record Auth := mkAuth {
  userId : option string;
  isAuthReady : bool;
  isAppOwner : bool;
}.

Definition initialAuth : Auth :=
  {| userId := None; isAuthReady := false; isAppOwner := false |}.

Definition STORAGE_KEY : string := "portfolio_user_id".

(** The mount effect of [useSupabaseAuth].  [storage] is [localStorage],
    [uuid] is what [crypto.randomUUID()] returns; the result is the state
    after the setters, the storage and the lines written to the console. *)
Definition authEffect (sb : option Client) (owner : option string)
    (uuid : string) (storage : gmap string string) (a : Auth)
    : Auth * gmap string string * list string :=
  match sb with
  | None =>
      ({| userId := userId a; isAuthReady := true; isAppOwner := isAppOwner a |},
       storage,
       ["Supabase client is not initialized. Check Vercel environment variables."%string])
  | Some _ =>
      let storedUserId := storage !! STORAGE_KEY in
      let generatedId := default uuid (Js.or_else storedUserId None) in
      let storage' := <[STORAGE_KEY := generatedId]> storage in
      let owns :=
        match owner with
        | Some o => Js.truthy o && bool_decide (generatedId = o)
        | None => false
        end in
      ({| userId := Some generatedId; isAuthReady := true;
          isAppOwner := if owns then true else isAppOwner a |},
       storage',
       if negb (Js.truthy_opt owner)
       then [("SIMULATED USER ID (COPY ME): " +:+ generatedId)%string] else [])
  end.

(** ** Project repository client: [useProjects] *)

(** The hook's React state, together with what the hook does to the outside:
    the requests it has sent to the data service and the lines it has
    written with [console.error]. *)
Record Repo := mkRepo {
  projects : list Project;
  loading : bool;
  error : option string;
  sent : list Supabase.Request;
  console : list string;
}.

Definition initialRepo : Repo :=
  {| projects := []; loading := true; error := None; sent := []; console := [] |}.

Definition setProjects (ps : list Project) (r : Repo) : Repo :=
  {| projects := ps; loading := loading r; error := error r;
     sent := sent r; console := console r |}.

Definition setLoading (b : bool) (r : Repo) : Repo :=
  {| projects := projects r; loading := b; error := error r;
     sent := sent r; console := console r |}.

Definition setError (e : option string) (r : Repo) : Repo :=
  {| projects := projects r; loading := loading r; error := e;
     sent := sent r; console := console r |}.

Definition send (q : Supabase.Request) (r : Repo) : Repo :=
  {| projects := projects r; loading := loading r; error := error r;
     sent := sent r ++ [q]; console := console r |}.

Definition consoleError (line : string) (r : Repo) : Repo :=
  {| projects := projects r; loading := loading r; error := error r;
     sent := sent r; console := console r ++ [line] |}.

Definition TABLE_NAME : string := "projects".

Definition LOAD_FAILED : string :=
  "Failed to load projects. Ensure the 'projects' table is created in Supabase.".

Definition NOT_READY : string := "Error: Supabase not ready or User ID missing.".

(** [const { data, error } = await request; if (error) throw error;]: the
    data when the await neither rejects nor carries an error. *)
Definition awaited (resp : Supabase.Response) : option (option (list Row)) :=
  match resp with
  | Supabase.Resolved data None => Some data
  | Supabase.Resolved _ (Some _) => None
  | Supabase.Rejected _ => None
  end.

Definition fetchRequest (userId : string) : Supabase.Request :=
  Supabase.order "created_at" false
    (Supabase.eq "owner_id" userId
       (Supabase.select "*" (Supabase.from TABLE_NAME))).

(** [fetchProjects], inside the effect that runs once the identity is
    ready: [sb] and [userId] are the non-null values the effect's guard let
    through.  Reading [data.map] on a null [data] throws as well. *)
Definition fetchProjects (sb : Client) (userId : string) (r : Repo) : Repo :=
  let q := fetchRequest userId in
  let r := send q r in
  let r :=
    match awaited (sb q) with
    | Some (Some data) => setError None (setProjects (ofRow <$> data) r)
    | _ =>
        setError (Some LOAD_FAILED)
          (consoleError
             "Error fetching projects from Supabase (Check Table/RLS setup):" r)
    end in
  setLoading false r.

(** What the realtime channel reports to the hook. *)
Inductive ChannelEvent :=
| Status (status : string)        (* the [subscribe] callback *)
| PostgresChange.                 (* any insert, update or delete on the table *)

(** The effect of [useProjects]: nothing but [setLoading(true)] until
    identity and handle are there; otherwise it opens the channel, whose
    callbacks keep the handle and the identity of that render. *)
Definition projectsEffect (sb : option Client) (a : Auth) (r : Repo)
    : Repo * option (Client * string) :=
  match sb, userId a with
  | Some client, Some uid =>
      if isAuthReady a && Js.truthy uid then (r, Some (client, uid))
      else (setLoading true r, None)
  | _, _ => (setLoading true r, None)
  end.

(** The two callbacks of the channel. *)
Definition onChannel (channel : Client * string) (ev : ChannelEvent)
    (r : Repo) : Repo :=
  match ev with
  | Status status =>
      if bool_decide (status = "SUBSCRIBED"%string)
      then fetchProjects channel.1 channel.2 r else r
  | PostgresChange => fetchProjects channel.1 channel.2 r
  end.

(** The tail shared by the three mutations: [if (error) throw error;
    setError(null)] with the [catch] that logs and stores [message]. *)
Definition settle (resp : Supabase.Response) (logLine message : string)
    (r : Repo) : Repo :=
  match awaited resp with
  | Some _ => setError None r
  | None => setError (Some message) (consoleError logLine r)
  end.

Definition insertRequest (userId : string) (newProject : Row) : Supabase.Request :=
  Supabase.insert (<["owner_id"%string := userId]> newProject)
    (Supabase.from TABLE_NAME).

Definition addProject (sb : option Client) (userId : option string)
    (newProject : Row) (r : Repo) : Repo :=
  match sb, userId with
  | Some client, Some uid =>
      if Js.truthy uid then
        let q := insertRequest uid newProject in
        settle (client q) "Error adding project to Supabase:"
          "Failed to add project. Ensure table and RLS policies are correct."
          (send q r)
      else setError (Some NOT_READY) r
  | _, _ => setError (Some NOT_READY) r
  end.

Definition updateRequest (id : string) (updatedFields : Row) : Supabase.Request :=
  let fieldsToUpdate := base.delete "id"%string updatedFields in
  Supabase.eq "id" id (Supabase.update fieldsToUpdate (Supabase.from TABLE_NAME)).

Definition updateProject (sb : option Client) (userId : option string)
    (id : string) (updatedFields : Row) (r : Repo) : Repo :=
  match sb, userId with
  | Some client, Some uid =>
      if Js.truthy uid then
        let q := updateRequest id updatedFields in
        settle (client q) "Error updating project in Supabase:"
          "Failed to save changes. Check RLS policies." (send q r)
      else setError (Some NOT_READY) r
  | _, _ => setError (Some NOT_READY) r
  end.

Definition deleteRequest (id : string) : Supabase.Request :=
  Supabase.eq "id" id (Supabase.delete (Supabase.from TABLE_NAME)).

Definition deleteProject (sb : option Client) (userId : option string)
    (id : string) (r : Repo) : Repo :=
  match sb, userId with
  | Some client, Some uid =>
      if Js.truthy uid then
        let q := deleteRequest id in
        settle (client q) "Error deleting project from Supabase:"
          "Failed to delete project. Check RLS policies." (send q r)
      else setError (Some NOT_READY) r
  | _, _ => setError (Some NOT_READY) r
  end.

(** ** Description-drafting client: [generateProjectDescription] *)

Module Gemini.

(** The JSON envelope, as deep as the code looks into it:
    [result.candidates?.[0]?.content?.parts?.[0]?.text]. *)
Record Part := { text : option string }.
Record Content := { parts : option (list Part) }.
Record Candidate := { content : option Content }.
Record Envelope := { candidates : option (list Candidate) }.

(** One [fetch] and the decoding of its body. *)
Inductive FetchResult :=
| NetworkError                                   (* [fetch] rejects *)
| Http (ok : bool) (status : nat) (body : option Envelope).
                                  (* [None]: [response.json()] rejects *)

Definition firstText (e : Envelope) : option string :=
  c ← candidates e ≫= head;
  k ← content c;
  p ← parts k ≫= head;
  text p.

End Gemini.

Record Draft := mkDraft {
  isLoading : bool;
  draftError : option string;
  description : string;                 (* the form field behind [setDescription] *)
  fetches : nat;                        (* POST requests made *)
  sleeps : list nat;                    (* the backoff delays waited, in ms *)
}.

Definition MAX_RETRIES : nat := 3.
Definition INITIAL_DELAY_MS : nat := 1000.

(** The body of the [try] block: the text to display, or [None] for every
    path that throws (rejected fetch, status not ok, unreadable body, no or
    empty text). *)
Definition attemptText (res : Gemini.FetchResult) : option string :=
  match res with
  | Gemini.NetworkError => None
  | Gemini.Http false _ _ => None
  | Gemini.Http true _ None => None
  | Gemini.Http true _ (Some result) =>
      match Gemini.firstText result with
      | Some text => if Js.truthy text then Some text else None
      | None => None
      end
  end.

(** The [for] loop from [attempt] on; [api n] is the outcome of the n-th
    request.  [fuel] bounds the iterations and is never the reason to stop
    when it is at least [MAX_RETRIES]. *)
Fixpoint attemptsFrom (fuel attempt : nat) (api : nat → Gemini.FetchResult)
    (d : Draft) : Draft :=
  match fuel with
  | O => d
  | S fuel' =>
      if negb (attempt <=? MAX_RETRIES) then d
      else
        let d := {| isLoading := isLoading d; draftError := draftError d;
                    description := description d;
                    fetches := S (fetches d); sleeps := sleeps d |} in
        match attemptText (api attempt) with
        | Some text =>
            {| isLoading := false; draftError := draftError d;
               description := Js.trim text;
               fetches := fetches d; sleeps := sleeps d |}
        | None =>
            if attempt =? MAX_RETRIES then
              {| isLoading := false;
                 draftError :=
                   Some "Failed to generate description after multiple attempts."%string;
                 description := description d;
                 fetches := fetches d; sleeps := sleeps d |}
            else
              let delay := INITIAL_DELAY_MS * 2 ^ (attempt - 1) in
              attemptsFrom fuel' (S attempt) api
                {| isLoading := isLoading d; draftError := draftError d;
                   description := description d;
                   fetches := fetches d; sleeps := sleeps d ++ [delay] |}
        end
  end.

Definition generateProjectDescription (title technologies : string)
    (api : nat → Gemini.FetchResult) (d : Draft) : Draft :=
  if negb (Js.truthy title) || negb (Js.truthy technologies) then
    {| isLoading := isLoading d;
       draftError :=
         Some "Please fill in the Title and Technologies fields first."%string;
       description := description d; fetches := fetches d; sleeps := sleeps d |}
  else
    attemptsFrom MAX_RETRIES 1 api
      {| isLoading := true; draftError := None;
         description := description d; fetches := fetches d; sleeps := sleeps d |}.

(** ** Presentation layer: manager mode *)

Record Ui := mkUi {
  isManagerMode : bool;
  activeTag : option string;
  currentProject : option Project;
  warnings : list string;               (* lines written with [console.warn] *)
}.

Definition initialUi : Ui :=
  {| isManagerMode := false; activeTag := None; currentProject := None;
     warnings := [] |}.

Definition canManage (a : Auth) : bool := isAuthReady a && isAppOwner a.

Definition ACCESS_DENIED_WARNING : string :=
  "Access Denied: Only the owner (as defined by VITE_APP_OWNER_ID) can access Manager Mode.".

Definition handleToggleManager (a : Auth) (u : Ui) : Ui :=
  if canManage a then
    {| isManagerMode := negb (isManagerMode u); activeTag := activeTag u;
       currentProject := None; warnings := warnings u |}
  else
    {| isManagerMode := isManagerMode u; activeTag := activeTag u;
       currentProject := currentProject u;
       warnings := warnings u ++ [ACCESS_DENIED_WARNING] |}.

Definition setActiveTag (t : option string) (u : Ui) : Ui :=
  {| isManagerMode := isManagerMode u; activeTag := t;
     currentProject := currentProject u; warnings := warnings u |}.

(** The three conditional blocks of the page that depend on the mode:
    [{isManagerMode && canManage && (<panels/>)}],
    [{isManagerMode && !canManage && (<div>Access Denied ...</div>)}] and
    the toggle button under [{isAuthReady && ...}]. *)
Definition rendersManagerPanels (a : Auth) (u : Ui) : bool :=
  isManagerMode u && canManage a.

Definition rendersAccessDenied (a : Auth) (u : Ui) : bool :=
  isManagerMode u && negb (canManage a).

Definition rendersToggle (a : Auth) : bool := isAuthReady a.

(** What can happen to the page: the identity effect runs, the visitor
    clicks the mode toggle (the button exists once the identity is ready),
    the visitor clicks a tag. *)
Inductive UiEvent :=
| Mounted (uuid : string) (storage : gmap string string)
| ClickToggle
| ClickTag (tag : string).

Definition uiStep (sb : option Client) (owner : option string)
    (s : Auth * Ui) (ev : UiEvent) : Auth * Ui :=
  match ev with
  | Mounted uuid storage => ((authEffect sb owner uuid storage s.1).1.1, s.2)
  | ClickToggle =>
      if rendersToggle s.1 then (s.1, handleToggleManager s.1 s.2) else s
  | ClickTag tag => (s.1, setActiveTag (handleTagClick (activeTag s.2) tag) s.2)
  end.

(** ** Timers *)

Module EventLoop.
Section WithTask.
(** A timer callback is kept as data: which closure to run. *)
Context {Task : Type}.

Record Timer := mkTimer { timerId : nat; due : nat; task : Task }.

Record Loop := mkLoop {
  now : nat;                        (* milliseconds *)
  nextId : nat;
  timers : list Timer;              (* pending, in creation order *)
}.

Definition start : Loop := {| now := 0; nextId := 1; timers := [] |}.

Definition setTimeout (t : Task) (delay : nat) (l : Loop) : nat * Loop :=
  (nextId l,
   {| now := now l; nextId := S (nextId l);
      timers := timers l ++
                [{| timerId := nextId l; due := now l + delay; task := t |}] |}).

(** [clearTimeout(id)]; an [undefined] or stale id clears nothing. *)
Definition clearTimeout (id : option nat) (l : Loop) : Loop :=
  match id with
  | None => l
  | Some i =>
      {| now := now l; nextId := nextId l;
         timers := List.filter (fun tm => negb (timerId tm =? i)) (timers l) |}
  end.

(** The pending timer to run first: the earliest due, the older one on
    a tie. *)
Fixpoint nextDue (ts : list Timer) : option Timer :=
  match ts with
  | [] => None
  | tm :: rest =>
      match nextDue rest with
      | Some tm' => if due tm <=? due tm' then Some tm else Some tm'
      | None => Some tm
      end
  end.

Definition fired (tm : Timer) (l : Loop) : Loop :=
  {| now := now l `max` due tm; nextId := nextId l;
     timers := List.filter (fun x => negb (timerId x =? timerId tm)) (timers l) |}.

Definition tick (t : nat) (l : Loop) : Loop :=
  {| now := now l `max` t; nextId := nextId l; timers := timers l |}.

(** Let time pass until [t]: run the callbacks that come due, in order,
    each at its due time; [handler] is what a callback does to the loop
    and to the rest of the world [X].  [fuel] bounds the callbacks run;
    the clock reaches [t] only when none is left due. *)
Fixpoint runUntil {X} (fuel t : nat)
    (handler : Task → Loop * X → Loop * X) (s : Loop * X) : Loop * X :=
  match nextDue (timers s.1) with
  | Some tm =>
      if due tm <=? t then
        match fuel with
        | O => s
        | S fuel' =>
            runUntil fuel' t handler (handler (task tm) (fired tm s.1, s.2))
        end
      else (tick t s.1, s.2)
  | None => (tick t s.1, s.2)
  end.

(** Let time pass until a turn that starts at [t]: the callbacks due
    before [t] have run.  A timer due at [t] itself is still pending, so
    that a turn which sets a timer with delay 0 and goes on sees it
    pending: no callback runs inside a turn. *)
Fixpoint runBefore {X} (fuel t : nat)
    (handler : Task → Loop * X → Loop * X) (s : Loop * X) : Loop * X :=
  match nextDue (timers s.1) with
  | Some tm =>
      if due tm <? t then
        match fuel with
        | O => s
        | S fuel' =>
            runBefore fuel' t handler (handler (task tm) (fired tm s.1, s.2))
        end
      else (tick t s.1, s.2)
  | None => (tick t s.1, s.2)
  end.

End WithTask.
Global Arguments Timer : clear implicits.
Global Arguments Loop : clear implicits.
End EventLoop.

(** ** Debounce utility *)

(** One call of the function returned by [debounce(func, delay)].
    [timeoutId] is the variable of that closure, [callback args] stands for
    [() => func.apply(this, args)]. *)
Definition debounce {Task A} (callback : A → Task) (delay : nat) (args : A)
    (timeoutId : option nat) (l : EventLoop.Loop Task)
    : option nat * EventLoop.Loop Task :=
  let l := EventLoop.clearTimeout timeoutId l in
  let '(id, l) := EventLoop.setTimeout (callback args) delay l in
  (Some id, l).

Module Debounce.
Section Run.
(** An arbitrary action on an arbitrary world, wrapped once. *)
Context {A W : Type} (func : A → W → W) (delay : nat).

Record State := mkState {
  loop : EventLoop.Loop A;
  timeoutId : option nat;
  world : W;
}.

Definition fresh (w : W) : State :=
  {| loop := EventLoop.start; timeoutId := None; world := w |}.

(** The timer callback: [func.apply(this, args)]. *)
Definition fire (args : A) (s : EventLoop.Loop A * (option nat * W))
    : EventLoop.Loop A * (option nat * W) :=
  (s.1, (s.2.1, func args s.2.2)).

(** Time passes until [t].  The action sets no timers, so the number
    of pending timers is fuel enough. *)
Definition elapse (t : nat) (s : State) : State :=
  let r := EventLoop.runUntil (length (EventLoop.timers (loop s))) t fire
             (loop s, (timeoutId s, world s)) in
  {| loop := r.1; timeoutId := r.2.1; world := r.2.2 |}.

(** Time passes until a call is made at [t].  The call and the calls
    before it may belong to one turn (the seeding loop calls three times
    in a row), and [clearTimeout] then finds the timer of the call before
    pending whatever the delay: only callbacks due before [t] have run. *)
Definition arrive (t : nat) (s : State) : State :=
  let r := EventLoop.runBefore (length (EventLoop.timers (loop s))) t fire
             (loop s, (timeoutId s, world s)) in
  {| loop := r.1; timeoutId := r.2.1; world := r.2.2 |}.

(** The wrapped action is invoked at time [t] with [args]. *)
Definition invoke (s : State) (call : nat * A) : State :=
  let s := arrive call.1 s in
  let r := debounce id delay call.2 (timeoutId s) (loop s) in
  {| loop := r.2; timeoutId := r.1; world := world s |}.

Definition invokeAll (calls : list (nat * A)) (s : State) : State :=
  foldl invoke s calls.

End Run.
Global Arguments State : clear implicits.
End Debounce.

(** ** Seeding of the example projects *)

Definition projectData (title description technologies githubUrl liveDemoUrl : string)
    : Row :=
  <["title"%string := title]>
    (<["description"%string := description]>
       (<["technologies"%string := technologies]>
          (<["githubUrl"%string := githubUrl]>
             (<["liveDemoUrl"%string := liveDemoUrl]> ∅)))).

Definition movieTicketBooking : Row :=
  projectData "Movie Ticket Booking System"
    "Developed a robust ticketing platform featuring real-time seat availability, flexible show timing selection, and a secure booking workflow. This project highlights proficiency in full-stack web development, specifically managing transactional data integrity and delivering a highly responsive user experience. It serves as a foundational example of a high-utility, public-facing service."
    "PHP, MySQL, JavaScript, HTML, CSS"
    "https://github.com/Ansen-2255/movie-booking-system" "#".

Definition applicantTracking : Row :=
  projectData "Applicant Tracking System (ATS)"
    "Developed a complete Applicant Tracking System designed to streamline the recruitment process for businesses. The platform includes essential modules for posting job openings, managing candidate registration, facilitating secure resume uploads, and providing an administrative dashboard for full oversight. This project demonstrates strong backend data management capabilities and the creation of a multi-user, role-based web utility."
    "HTML, PHP, MySQL"
    "https://github.com/Ansen-2255/ATS-Applicant-Tracking-System-" "#".

Definition hangmanApp : Row :=
  projectData "Hangman App"
    "Developed a classic Hangman word-guessing game tailored for the Android platform. This mobile application utilizes Java and Android Studio to manage game state, user input, and dynamic UI rendering based on player attempts. The project showcases practical mobile development skills, user interface design, and state management within an activity lifecycle, and fundamental game logic implementation."
    "Android Studio, Java, Mobile Development"
    "https://github.com/Ansen-2255/hangman-mobile-application" "#".

Definition initialProjectsData : list Row :=
  [movieTicketBooking; applicantTracking; hangmanApp].

Definition ADD_DEBOUNCE_MS : nat := 300.
Definition SEED_DELAY_MS : nat := 1500.

Module Seeding.

(** The closures that sit in timers.  [Seed c] is the callback of the
    seeding effect, which captured the [addProject] of its render: the
    debounce closure number [c].  [Add p] is the callback a debounce
    closure sets: the hook's own [addProject] applied to [p]. *)
Inductive Task :=
| Seed (closure : nat)
| Add (newProject : Row).

(** [closures] holds the [timeoutId] variable of every closure that
    [debounce(addProject, 300)] has returned; each render of
    [useProjects] makes a new one. *)
Record World := mkWorld {
  closures : list (option nat);
  repo : Repo;
}.

Abbreviation State := (EventLoop.Loop Task * World)%type.

(** A render of [useProjects]: the [addProject] it returns is a fresh
    debounce closure. *)
Definition render (s : State) : nat * State :=
  (length (closures s.2),
   (s.1, {| closures := closures s.2 ++ [None]; repo := repo s.2 |})).

(** A call of the debounced [addProject] number [c]. *)
Definition callAddProject (c : nat) (s : State) (p : Row) : State :=
  let r := debounce Add ADD_DEBOUNCE_MS p (mjoin (closures s.2 !! c)) s.1 in
  (r.2, {| closures := <[c := r.1]> (closures s.2); repo := repo s.2 |}).

(** The effect of [App] that seeds: [None] when it returns early, else
    the timer its cleanup would clear. *)
Definition seedEffect (isAppOwner loading : bool) (addProject : nat)
    (s : State) : State * option nat :=
  if negb isAppOwner || loading || (0 <? length (projects (repo s.2))) then (s, None)
  else if length (projects (repo s.2)) =? 0 then
    let '(timer, l) := EventLoop.setTimeout (Seed addProject) SEED_DELAY_MS s.1 in
    ((l, s.2), Some timer)
  else (s, None).

(** What each timer callback does. *)
Definition handler (sb : option Client) (userId : option string)
    (t : Task) (s : State) : State :=
  match t with
  | Seed c => foldl (callAddProject c) s initialProjectsData
  | Add p =>
      (s.1, {| closures := closures s.2;
               repo := addProject sb userId p (repo s.2) |})
  end.

(** The App of an owner: render, run the seeding effect, let time pass
    until [t]. *)
Definition mountAndWait (fuel t : nat) (sb : option Client) (a : Auth)
    (r : Repo) : State :=
  let '(add, s) := render (EventLoop.start, {| closures := []; repo := r |}) in
  let s := (seedEffect (isAppOwner a) (loading r) add s).1 in
  EventLoop.runUntil fuel t (handler sb (userId a)) s.

End Seeding.

(** ** Presentation layer: links, header, project form, page metadata *)

(** [LinkButton]: the [href] of the anchor it renders, [None] when it
    renders nothing ([!href || href === '#']). *)
Definition LinkButton (href : option string) : option string :=
  match href with
  | None => None
  | Some h =>
      if negb (Js.truthy h) || bool_decide (h = "#"%string) then None
      else Some (if Js.startsWith h "http" then h else ("https://" +:+ h)%string)
  end.

(** The first word of the header, [profile.name.split(' ')[0]]. *)
Definition headerName (name : string) : string :=
  default EmptyString (head (Js.split " "%char name)).

Module ProjectForm.

(** The form's React state. *)
Record State := mkState {
  id : string;
  title : string;
  description : string;
  technologies : string;
  githubUrl : string;
  liveDemoUrl : string;
  submissionError : option string;
}.

(** [currentProject?.key || ''] *)
Definition field (currentProject : option Project) (key : string) : string :=
  default EmptyString (Js.or_else (currentProject ≫= fun p => fields p !! key) None).

(** The initial state and the effect on [currentProject]: the fields of the
    project being edited, empty strings for a new project. *)
Definition load (currentProject : option Project) : State :=
  {| id := field currentProject "id";
     title := field currentProject "title";
     description := field currentProject "description";
     technologies := field currentProject "technologies";
     githubUrl := field currentProject "githubUrl";
     liveDemoUrl := field currentProject "liveDemoUrl";
     submissionError := None |}.

Definition setSubmissionError (e : option string) (f : State) : State :=
  {| id := id f; title := title f; description := description f;
     technologies := technologies f; githubUrl := githubUrl f;
     liveDemoUrl := liveDemoUrl f; submissionError := e |}.

(** [resetForm], on the form's own state; it also calls
    [setCurrentProject(null)]. *)
Definition resetForm (f : State) : State :=
  {| id := EmptyString; title := EmptyString; description := EmptyString;
     technologies := EmptyString; githubUrl := EmptyString;
     liveDemoUrl := EmptyString; submissionError := submissionError f |}.

Definition REQUIRED : string :=
  "Title, Description, and Technologies are required.".

Definition NOT_OWNER : string :=
  "SECURITY ERROR: You must be authenticated as the app owner to add/edit projects.".

(** [{ title, description, technologies, githubUrl, liveDemoUrl }] *)
Definition data (f : State) : Row :=
  projectData (title f) (description f) (technologies f) (githubUrl f)
    (liveDemoUrl f).

(** [handleSubmit].  The props are the viewer's [isAppOwner], the
    [currentProject] being edited, the hook's [updateProject] (here with its
    handle [sb] and identity [userId]) and the hook's [addProject], which is
    the debounce closure number [addProject].  The result is the form, the
    [currentProject] of [App] and the world outside the form.  Neither
    operation throws, so the [catch] of [handleSubmit] is never entered. *)
Definition handleSubmit (isAppOwner : bool) (currentProject : option Project)
    (sb : option Client) (userId : option string) (addProject : nat)
    (f : State) (w : Seeding.State)
    : State * option Project * Seeding.State :=
  let isEditing := bool_decide (is_Some currentProject) in
  let f := setSubmissionError None f in
  if negb (Js.truthy (title f)) || negb (Js.truthy (description f))
     || negb (Js.truthy (technologies f))
  then (setSubmissionError (Some REQUIRED) f, currentProject, w)
  else if negb isAppOwner
  then (setSubmissionError (Some NOT_OWNER) f, currentProject, w)
  else
    let projectData := data f in
    let w :=
      if isEditing && Js.truthy (id f)
      then (w.1, {| Seeding.closures := Seeding.closures w.2;
                    Seeding.repo :=
                      updateProject sb userId (id f) projectData (Seeding.repo w.2) |})
      else Seeding.callAddProject addProject w projectData in
    (resetForm f, None, w).

End ProjectForm.

Module Seo.

(** A [meta] element: its [name] and [property] attributes and its
    [content]. *)
Record Meta := mkMeta {
  name : option string;
  property : option string;
  content : string;
}.

(** The document as the effect sees it: the title, the [meta] elements of
    [document.head] in order, and the [meta] elements that follow the head
    in the document, in order (the App renders its viewport element inside
    its own root element). *)
Record Document := mkDocument {
  title : string;
  head : list Meta;
  body : list Meta;
}.

(** The [meta] elements in document order, the order in which
    [document.querySelector] looks. *)
Definition metas (d : Document) : list Meta := head d ++ body d.

(** [tag.content = content] on the first element of a list that
    [selects]. *)
Fixpoint setFirst (selects : Meta → bool) (c : string) (l : list Meta)
    : list Meta :=
  match l with
  | [] => []
  | m :: rest =>
      if selects m
      then {| name := name m; property := property m; content := c |} :: rest
      else m :: setFirst selects c rest
  end.

(** [tag.content = content] on the element [querySelector] finds: the
    first in document order, in the head or after it. *)
Definition setContent (selects : Meta → bool) (c : string) (d : Document)
    : Document :=
  if existsb selects (head d)
  then {| title := title d; head := setFirst selects c (head d); body := body d |}
  else {| title := title d; head := head d; body := setFirst selects c (body d) |}.

(** [document.head.appendChild(tag)]: the element becomes the last one of
    the head, before whatever follows the head. *)
Definition appendToHead (m : Meta) (d : Document) : Document :=
  {| title := title d; head := head d ++ [m]; body := body d |}.

Definition named (n : string) (m : Meta) : bool := bool_decide (name m = Some n).

Definition withProperty (p : string) (m : Meta) : bool :=
  bool_decide (property m = Some p).

(** [updateMeta(name, content)]: create the element when the selector
    finds none, then set its content. *)
Definition updateMeta (n c : string) (d : Document) : Document :=
  if existsb (named n) (metas d) then setContent (named n) c d
  else appendToHead {| name := Some n; property := None; content := c |} d.

(** [updateOgMeta(property, content)] *)
Definition updateOgMeta (p c : string) (d : Document) : Document :=
  if existsb (withProperty p) (metas d) then setContent (withProperty p) c d
  else appendToHead {| name := None; property := Some p; content := c |} d.

Definition pageTitle (profileName : string) : string :=
  (profileName +:+ " | Full-Stack Developer Portfolio")%string.

Definition PAGE_DESCRIPTION : string :=
  "Ansen G James's professional portfolio showcasing full-stack MERN, PHP/MySQL, and Android development projects.".

(** The effect on [profile.name]; [href] is [window.location.href]. *)
Definition seoEffect (profileName href : string) (d : Document) : Document :=
  let d := {| title := pageTitle profileName; head := head d; body := body d |} in
  updateOgMeta "og:type" "website"
    (updateOgMeta "og:url" href
       (updateOgMeta "og:description" PAGE_DESCRIPTION
          (updateOgMeta "og:title" (pageTitle profileName)
             (updateMeta "description" PAGE_DESCRIPTION d)))).

End Seo.

(** ** Presentation layer: the projects section *)

(** What the projects section shows, besides the manager panels. *)
Record ProjectsSection := mkProjectsSection {
  showsLoading : bool;                  (* "Loading projects..." *)
  shownError : option string;           (* the error block *)
  showsTagFilter : bool;
  emptyMessage : option string;
  cards : list Project;
}.

Definition NO_MATCH : string := "No projects match the selected filter.".
Definition NO_PROJECTS : string := "No projects found in the database. Add one now!".

Definition initialLoading (a : Auth) (r : Repo) : bool :=
  negb (isAuthReady a) || loading r.

Definition projectsSection (a : Auth) (r : Repo) (u : Ui) : ProjectsSection :=
  let filtered := filteredProjects (projects r) (activeTag u) in
  let settled := negb (initialLoading a r) in
  let healthy := settled && negb (Js.truthy_opt (error r)) in
  {| showsLoading := initialLoading a r;
     shownError := if settled && Js.truthy_opt (error r) then error r else None;
     showsTagFilter := healthy && (0 <? length (projects r));
     emptyMessage :=
       if healthy && (length filtered =? 0)
       then Some (if Js.truthy_opt (activeTag u) then NO_MATCH else NO_PROJECTS)
       else None;
     cards := filtered |}.

(** The tags [ProjectCard] shows on a card:
    [project.technologies?.split(',').map(tech => tech.trim())]. *)
Definition cardTags (p : Project) : list string :=
  match technologies p with
  | None => []
  | Some text => Js.trim <$> Js.split ","%char text
  end.

(** The channel's callbacks over a sequence of reports. *)
Definition onChannelAll (channel : Client * string) (evs : list ChannelEvent)
    (r : Repo) : Repo :=
  foldl (fun r ev => onChannel channel ev r) r evs.

(** * Vocabulary of the statements *)

(** ** Strings *)

(** [l.join(sep)], the inverse of [split]. *)
Fixpoint join (sep : ascii) (l : list string) : string :=
  match l with
  | [] => EmptyString
  | [x] => x
  | x :: rest => x +:+ String sep (join sep rest)
  end.

(** The code unit [c] occurs in [s]. *)
Fixpoint has (c : ascii) (s : string) : Prop :=
  match s with
  | EmptyString => False
  | String a s' => a = c ∨ has c s'
  end.

(** [s] is made of white space only. *)
Definition blank (s : string) : Prop :=
  ∀ c, has c s → Js.isWhiteSpace c = true.

Definition firstUnit (s : string) : option ascii :=
  match s with EmptyString => None | String c _ => Some c end.

Fixpoint lastUnit (s : string) : option ascii :=
  match s with
  | EmptyString => None
  | String c EmptyString => Some c
  | String _ s' => lastUnit s'
  end.

(** The code unit, if there is one, is not white space. *)
Definition solid (o : option ascii) : Prop :=
  ∀ c, o = Some c → Js.isWhiteSpace c = false.

(** ** Tags *)

(** [x] is a tag of [projects]: a non-empty string that is the trimmed form
    of a comma-separated piece of some project's technology text. *)
Definition isTag (projects : list Project) (x : string) : Prop :=
  x ≠ EmptyString ∧
  ∃ p text tech, p ∈ projects ∧ technologies p = Some text ∧
                 tech ∈ Js.split ","%char text ∧ Js.trim tech = x.

(** Two strings are the same but for the case of their letters. *)
Definition sameIgnoringCase (s t : string) : Prop :=
  Js.toLowerCase s = Js.toLowerCase t.

(** [tag] occurs in [text] as a substring, case ignored. *)
Definition containsIgnoringCase (text tag : string) : Prop :=
  ∃ pre mid post, text = pre +:+ mid +:+ post ∧ sameIgnoringCase mid tag.

(** The project has a technology text and the tag occurs in it. *)
Definition hasTag (tag : string) (p : Project) : Prop :=
  ∃ text, technologies p = Some text ∧ containsIgnoringCase text tag.

(** ** Requests and answers *)

(** The request carries the filter [owner_id = uid]. *)
Definition ownerFiltered (uid : string) (q : Supabase.Request) : Prop :=
  ("owner_id"%string, uid) ∈ Supabase.filters q.

(** The request is confined to the rows of [uid]: an insert writes
    [owner_id = uid], any other verb filters on it. *)
Definition ownerScoped (uid : string) (q : Supabase.Request) : Prop :=
  match Supabase.verb q with
  | Supabase.Insert row => row !! "owner_id"%string = Some uid
  | _ => ownerFiltered uid q
  end.

(** Every request of the four operations is confined to the rows of the
    identity that issues it. *)
Definition everyRequestOwnerScoped : Prop :=
  ∀ (client : Client) (uid : string) (r : Repo) (newProject changes : Row)
    (id : string),
    Js.truthy uid = true →
    ∀ r', r' ∈ [fetchProjects client uid r;
                addProject (Some client) (Some uid) newProject r;
                updateProject (Some client) (Some uid) id changes r;
                deleteProject (Some client) (Some uid) id r] →
    ∀ q, q ∈ sent r' → q ∉ sent r → ownerScoped uid q.

(** Two service handles for examples: one that grants every request, one
    that answers every request with an error. *)
Definition granting : Client := fun _ => Supabase.Resolved (Some []) None.

Definition refusing : Client :=
  fun _ => Supabase.Resolved None (Some "permission denied"%string).

(** The query of [fetchProjects] failed: it threw before [setProjects]. *)
Definition queryFailed (resp : Supabase.Response) : Prop :=
  ∀ data, awaited resp ≠ Some (Some data).

(** The awaited request came back without an error. *)
Definition succeeded (resp : Supabase.Response) : Prop :=
  is_Some (awaited resp).

(** After a failed list query the in-memory list is empty. *)
Definition failedQueryLeavesListEmpty : Prop :=
  ∀ (client : Client) (uid : string) (r : Repo),
    queryFailed (client (fetchRequest uid)) →
    projects (fetchProjects client uid r) = [].

(** ** Manager mode *)

(** The identity hook after its mount effect, from the initial state. *)
Definition mounted (sb : option Client) (owner : option string) (uuid : string)
    (storage : gmap string string) : Auth :=
  (authEffect sb owner uuid storage initialAuth).1.1.

(** A refused toggle shows the access-denied block. *)
Definition refusedToggleRendersAccessDenied : Prop :=
  ∀ (client : Client) (owner uuid identity : string) (storage : gmap string string),
    Js.truthy owner = true →
    userId (mounted (Some client) (Some owner) uuid storage) = Some identity →
    identity ≠ owner →
    let a := mounted (Some client) (Some owner) uuid storage in
    rendersAccessDenied a (handleToggleManager a initialUi) = true.

(** The owner of a loaded, empty list. *)
Definition ownerAuth (uid : string) : Auth :=
  {| userId := Some uid; isAuthReady := true; isAppOwner := true |}.

(** ** Drafting *)

(** An answer with status 200 whose first candidate carries [text]. *)
Definition answer (text : string) : Gemini.FetchResult :=
  Gemini.Http true 200
    (Some {| Gemini.candidates :=
               Some [{| Gemini.content :=
                          Some {| Gemini.parts := Some [{| Gemini.text := Some text |}] |} |}] |}).

Definition blankDraft : Draft :=
  {| isLoading := false; draftError := None; description := EmptyString;
     fetches := 0; sleeps := [] |}.

(** When the third attempt is the first to succeed, the description shown
    is the text of the third answer as it came. *)
Definition thirdTextShownVerbatim : Prop :=
  ∀ (title technologies text : string) (api : nat → Gemini.FetchResult) (d : Draft),
    Js.truthy title = true → Js.truthy technologies = true →
    attemptText (api 1) = None → attemptText (api 2) = None →
    api 3 = answer text → Js.truthy text = true →
    description (generateProjectDescription title technologies api d) = text.

(** ** Bursts of calls *)

Section Bursts.
Context {A W : Type} (delay : nat).

(** The state right after the wrapped action was invoked at time [t] with
    [a]: one timer is pending, for [a], due when the window after [t] has
    elapsed, and the closure remembers it. *)
Definition armed (s : Debounce.State A W) (t : nat) (a : A) (w : W) : Prop :=
  ∃ id, EventLoop.timers (Debounce.loop s) = [EventLoop.mkTimer id (t + delay) a] ∧
        Debounce.timeoutId s = Some id ∧
        EventLoop.now (Debounce.loop s) = t ∧
        Debounce.world s = w.

(** Calls that follow a call made at [t], each before the window of the
    one before it has elapsed. *)
Fixpoint withinWindow (t : nat) (calls : list (nat * A)) : Prop :=
  match calls with
  | [] => True
  | call :: rest => t ≤ call.1 < t + delay ∧ withinWindow call.1 rest
  end.

(** A burst: a first call and the calls that follow it within the window. *)
Record Burst := mkBurst { firstCall : nat * A; followers : list (nat * A) }.

Definition callsOf (b : Burst) : list (nat * A) := firstCall b :: followers b.

Definition lastCall (b : Burst) : nat * A := List.last (followers b) (firstCall b).

(** Bursts in sequence: inside a burst the calls are within the window,
    and a burst starts only after the window after the last call of the
    burst before it has elapsed, that is later than the time at which its
    timer is due ([prev] is the time of that call). *)
Fixpoint bursts (prev : option nat) (bs : list Burst) : Prop :=
  match bs with
  | [] => True
  | b :: rest =>
      match prev with
      | Some t => t + delay < (firstCall b).1
      | None => True
      end ∧
      withinWindow (firstCall b).1 (followers b) ∧
      bursts (Some (lastCall b).1) rest
  end.

(** A time by which all windows have elapsed: it is later than the time
    at which the timer of any call is due. *)
Definition quiet (bs : list Burst) (t : nat) : Prop :=
  ∀ b, b ∈ bs → (lastCall b).1 + delay < t.

End Bursts.
Global Arguments Burst : clear implicits.

(** A log of the calls that got through, as the world, for examples. *)
Definition logCall (args : string) (log : list string) : list string :=
  log ++ [args].

(** ** Further vocabulary *)

(** The channel report makes the hook query: the status "SUBSCRIBED" or any
    change on the table. *)
Definition triggers (ev : ChannelEvent) : bool :=
  match ev with
  | Status status => bool_decide (status = "SUBSCRIBED"%string)
  | PostgresChange => true
  end.

(** The five properties a form submit sends. *)
Definition FORM_KEYS : list string :=
  ["title"; "description"; "technologies"; "githubUrl"; "liveDemoUrl"]%string.

(** The form passes the required-fields check. *)
Definition complete (f : ProjectForm.State) : Prop :=
  Js.truthy (ProjectForm.title f) = true ∧
  Js.truthy (ProjectForm.description f) = true ∧
  Js.truthy (ProjectForm.technologies f) = true.


Section DebounceSafety.
Context {A W : Type} (func : A → W → W) (w0 : W).

(** The action has run for the arguments [ran], in that order, starting
    from [w0]. *)
Definition hasRun (ran : list A) (w : W) : Prop :=
  w = foldl (fun w a => func a w) w0 ran.

(** What holds of a debounce closure after the calls with the arguments
    [called]: either no timer is pending and the action has run for some of
    the calls, or the one pending timer is for the last call, the closure
    remembers it, and the action has run for some of the calls before. *)
Definition settled (called : list A) (s : Debounce.State A W) : Prop :=
  ∃ ran, hasRun ran (Debounce.world s) ∧
    ((EventLoop.timers (Debounce.loop s) = [] ∧ ran `sublist_of` called) ∨
     (∃ tm before, EventLoop.timers (Debounce.loop s) = [tm] ∧
        Debounce.timeoutId s = Some (EventLoop.timerId tm) ∧
        called = before ++ [EventLoop.task tm] ∧ ran `sublist_of` before)).

End DebounceSafety.

(** Every pending timer was handed out by this loop: its id is below the
    next id. *)
Definition wellFormed {Task} (l : EventLoop.Loop Task) : Prop :=
  Forall (fun tm => EventLoop.timerId tm < EventLoop.nextId l) (EventLoop.timers l).

(** The attributes of a [meta] element that selectors look at. *)
Definition attrs (m : Seo.Meta) : option string * option string :=
  (Seo.name m, Seo.property m).

(** The content of the element [querySelector] finds. *)
Definition contentOf (selects : Seo.Meta → bool) (l : list Seo.Meta) : option string :=
  Seo.content <$> List.find selects l.

(** What an update looks for: an element by its [name] or by its
    [property]. *)
Inductive MetaKey :=
| ByName (n : string)
| ByProperty (p : string).

Definition selects (k : MetaKey) : Seo.Meta → bool :=
  match k with
  | ByName n => Seo.named n
  | ByProperty p => Seo.withProperty p
  end.

(** The element an update creates when it finds none. *)
Definition created (k : MetaKey) (c : string) : Seo.Meta :=
  match k with
  | ByName n => {| Seo.name := Some n; Seo.property := None; Seo.content := c |}
  | ByProperty p => {| Seo.name := None; Seo.property := Some p; Seo.content := c |}
  end.

(** [updateMeta] and [updateOgMeta] under one name. *)
Definition update (k : MetaKey) (c : string) (d : Seo.Document) : Seo.Document :=
  match k with
  | ByName n => Seo.updateMeta n c d
  | ByProperty p => Seo.updateOgMeta p c d
  end.

(** A sequence of updates, first to last. *)
Definition updates (kcs : list (MetaKey * string)) (d : Seo.Document)
    : Seo.Document :=
  foldl (fun d kc => update kc.1 kc.2 d) d kcs.

(** The updates the effect makes. *)
Definition seoUpdates (profileName href : string) : list (MetaKey * string) :=
  [(ByName "description", Seo.PAGE_DESCRIPTION);
   (ByProperty "og:title", Seo.pageTitle profileName);
   (ByProperty "og:description", Seo.PAGE_DESCRIPTION);
   (ByProperty "og:url", href);
   (ByProperty "og:type", "website"%string)].

(** No element carries both a [name] and a [property]. *)
Definition plain (l : list Seo.Meta) : Prop :=
  Forall (fun m => Seo.name m = None ∨ Seo.property m = None) l.

Global Instance MetaKey_eq_dec : EqDecision MetaKey.
Proof. solve_decision. Defined.

(** * Properties *)

(** ** JavaScript strings: the library functions behave as documented *)

Example split_ex :
  Js.split ","%char "PHP, MySQL,,JS " = ["PHP"; " MySQL"; ""; "JS "]%string.
Proof. reflexivity. Qed.

Example trim_ex : Js.trim "  a b  " = "a b"%string.
Proof. reflexivity. Qed.

Example includes_ex :
  Js.includes (Js.toLowerCase "Node, MySQL") (Js.toLowerCase "mysql") = true.
Proof. reflexivity. Qed.

Example sort_ex : Js.sort ["b"; "a"; "B"]%string = ["B"; "a"; "b"]%string.
Proof. reflexivity. Qed.

Lemma truthy_true (s : string) : Js.truthy s = true ↔ s ≠ EmptyString.
Proof. destruct s; simpl; split; congruence. Qed.

Lemma truthy_false (s : string) : Js.truthy s = false ↔ s = EmptyString.
Proof. destruct s; simpl; split; congruence. Qed.

(** [split] gives at least one piece, the pieces joined by the separator
    are the string, and no piece contains the separator. *)
Lemma split_nonempty sep s : Js.split sep s ≠ [].
Proof.
  destruct s as [|c s]; simpl; [done|].
  case_bool_decide; [done|]. by destruct (Js.split sep s).
Qed.

Lemma join_split sep s : join sep (Js.split sep s) = s.
Proof.
  induction s as [|c s IH]; simpl; [done|].
  case_bool_decide as Hc.
  - subst c. pose proof (split_nonempty sep s) as Hne.
    destruct (Js.split sep s) as [|y ys] eqn:E; [done|].
    change (join sep (EmptyString :: y :: ys))
      with (String sep (join sep (y :: ys))). by rewrite IH.
  - destruct (Js.split sep s) as [|y ys] eqn:E; [by destruct (split_nonempty sep s)|].
    destruct ys as [|z zs]; simpl in *; by rewrite <- IH.
Qed.

Lemma split_no_sep sep s tok : tok ∈ Js.split sep s → ¬ has sep tok.
Proof.
  revert tok. induction s as [|c s IH]; simpl; intros tok Hin.
  - apply list_elem_of_singleton in Hin as ->. simpl. tauto.
  - case_bool_decide as Hc.
    + apply elem_of_cons in Hin as [->|Hin]; [simpl; tauto|by apply IH].
    + destruct (Js.split sep s) as [|y ys] eqn:E.
      * apply list_elem_of_singleton in Hin as ->. simpl. tauto.
      * apply elem_of_cons in Hin as [->|Hin].
        -- simpl. intros [?|Hy]; [done|]. apply (IH y); [left|done].
        -- apply IH. by right.
Qed.

Lemma append_cons c (s t : string) : String c s +:+ t = String c (s +:+ t).
Proof. reflexivity. Qed.

Lemma append_empty_l (t : string) : EmptyString +:+ t = t.
Proof. reflexivity. Qed.

Lemma blank_empty : blank EmptyString.
Proof. by intros ? []. Qed.

Lemma blank_cons c s : Js.isWhiteSpace c = true → blank s → blank (String c s).
Proof. intros Hc Hs d [<-|Hd]; [done|by apply Hs]. Qed.

(** [trimStart] and [trimEnd] each remove exactly a run of white space. *)
Lemma trimStart_spec s :
  ∃ pre, s = pre +:+ Js.trimStart s ∧ blank pre ∧ solid (firstUnit (Js.trimStart s)).
Proof.
  induction s as [|c s (pre & Hs & Hpre & Hhd)]; simpl.
  - exists EmptyString. split; [done|]. split; [apply blank_empty|by intros ?].
  - destruct (Js.isWhiteSpace c) eqn:Hc.
    + exists (String c pre). rewrite append_cons, <- Hs.
      split; [done|]. split; [by apply blank_cons|done].
    + exists EmptyString. split; [done|]. split; [apply blank_empty|].
      intros d [= <-]. done.
Qed.

Lemma trimEnd_spec s :
  ∃ post, s = Js.trimEnd s +:+ post ∧ blank post ∧ solid (lastUnit (Js.trimEnd s)).
Proof.
  induction s as [|c s (post & Hs & Hpost & Hlast)]; simpl.
  - exists EmptyString. split; [done|]. split; [apply blank_empty|by intros ?].
  - destruct (Js.trimEnd s) as [|d t] eqn:Ht.
    + rewrite append_empty_l in Hs. subst post.
      destruct (Js.isWhiteSpace c) eqn:Hc.
      * exists (String c s). split; [done|]. split; [by apply blank_cons|by intros ?].
      * exists s. split; [done|]. split; [done|]. intros e [= <-]. done.
    + exists post. rewrite append_cons, <- Hs. split; [done|]. split; [done|].
      intros e He. apply Hlast. done.
Qed.

Lemma trimEnd_keeps_first s :
  solid (firstUnit s) → firstUnit (Js.trimEnd s) = firstUnit s.
Proof.
  destruct s as [|c s]; simpl; [done|]. intros Hc.
  destruct (Js.trimEnd s); [|done]. by rewrite (Hc c eq_refl).
Qed.

(** [trim s] is [s] without a blank prefix and a blank suffix, and it
    neither starts nor ends with white space. *)
Lemma trim_spec s :
  ∃ pre post, s = pre +:+ Js.trim s +:+ post ∧ blank pre ∧ blank post ∧
              solid (firstUnit (Js.trim s)) ∧ solid (lastUnit (Js.trim s)).
Proof.
  destruct (trimStart_spec s) as (pre & Hs & Hpre & Hfirst).
  destruct (trimEnd_spec (Js.trimStart s)) as (post & Ht & Hpost & Hlast).
  exists pre, post. unfold Js.trim. rewrite <- Ht.
  split; [done|]. split; [done|]. split; [done|]. split; [|done].
  by rewrite trimEnd_keeps_first.
Qed.

(** [String.le], the order [sort] uses, is the lexicographic order on code
    units: the empty string comes first, and two non-empty strings compare
    by their first units, then by their tails. *)
Lemma le_empty (s : string) : String.le EmptyString s.
Proof. by destruct s. Qed.

Lemma not_le_empty (a : ascii) (s : string) : ¬ String.le (String a s) EmptyString.
Proof. unfold String.le. simpl. tauto. Qed.

Lemma le_cons (a b : ascii) (s t : string) :
  String.le (String a s) (String b t) ↔
  (N_of_ascii a < N_of_ascii b)%N ∨ (a = b ∧ String.le s t).
Proof.
  unfold String.le, Stdlib.Strings.String.leb. simpl. unfold Ascii.compare.
  destruct (N.compare_spec (N_of_ascii a) (N_of_ascii b)) as [Heq|Hlt|Hgt]; simpl.
  - assert (a = b) as ->.
    { rewrite <- (ascii_N_embedding a), <- (ascii_N_embedding b). by f_equal. }
    split; [by right|]. intros [?|[_ ?]]; [lia|done].
  - split; [by left|done].
  - split; [done|]. intros [?|[-> _]]; lia.
Qed.

(** ** Tag derivation *)

Lemma elem_of_set_add x y s : y ∈ Js.set_add x s ↔ y = x ∨ y ∈ s.
Proof.
  unfold Js.set_add. case_bool_decide; [naive_solver|].
  rewrite elem_of_app, list_elem_of_singleton. tauto.
Qed.

Lemma NoDup_set_add x s : NoDup s → NoDup (Js.set_add x s).
Proof.
  unfold Js.set_add. case_bool_decide; [done|]. intros Hs.
  apply NoDup_app. split; [done|]. split; [|apply NoDup_singleton].
  intros y Hy Hx. apply list_elem_of_singleton in Hx. by subst y.
Qed.

Section Collect.
(** The callback of the inner [forEach]. *)
Let step (tags : list string) (tech : string) : list string :=
  if Js.truthy (Js.trim tech) then Js.set_add (Js.trim tech) tags else tags.

Lemma elem_of_collect techs tags y :
  y ∈ foldl step tags techs ↔
  y ∈ tags ∨ (y ≠ EmptyString ∧ ∃ tech, tech ∈ techs ∧ Js.trim tech = y).
Proof.
  revert tags. induction techs as [|t techs IH]; intros tags; simpl.
  - split; [by left|]. intros [?|(_ & ? & []%elem_of_nil & _)]. done.
  - rewrite IH. unfold step. destruct (Js.truthy (Js.trim t)) eqn:Ht.
    + rewrite elem_of_set_add. apply truthy_true in Ht. split.
      * intros [[->|?]|(? & tech & ? & ?)]; [right|by left|right].
        -- split; [done|]. exists t. split; [left|done].
        -- split; [done|]. exists tech. split; [by right|done].
      * intros [?|(? & tech & [->|?]%elem_of_cons & ?)]; [by left; right|by left; left|].
        right. split; [done|]. by exists tech.
    + apply truthy_false in Ht. split.
      * intros [?|(? & tech & ? & ?)]; [by left|right].
        split; [done|]. exists tech. split; [by right|done].
      * intros [?|(? & tech & [->|?]%elem_of_cons & ?)]; [by left|congruence|].
        right. split; [done|]. by exists tech.
Qed.

Lemma NoDup_collect techs tags : NoDup tags → NoDup (foldl step tags techs).
Proof.
  revert tags. induction techs as [|t techs IH]; intros tags Hn; simpl; [done|].
  apply IH. unfold step. destruct (Js.truthy _); [by apply NoDup_set_add|done].
Qed.
End Collect.

Lemma elem_of_addTechs tags p y :
  y ∈ addTechs tags p ↔ y ∈ tags ∨ isTag [p] y.
Proof.
  unfold addTechs, isTag. destruct (technologies p) as [text|] eqn:Hp.
  - rewrite elem_of_collect. split.
    + intros [?|(? & tech & ? & ?)]; [by left|right]. split; [done|].
      exists p, text, tech. by rewrite list_elem_of_singleton.
    + intros [?|(? & q & text' & tech & ->%list_elem_of_singleton & Hq & ? & ?)];
        [by left|right]. split; [done|]. exists tech. by simplify_eq.
  - split; [by left|].
    intros [?|(? & q & text' & tech & ->%list_elem_of_singleton & Hq & ? & ?)];
      [done|congruence].
Qed.

Lemma NoDup_addTechs tags p : NoDup tags → NoDup (addTechs tags p).
Proof.
  unfold addTechs. destruct (technologies p); [|done]. apply NoDup_collect.
Qed.

Lemma isTag_cons p ps y : isTag (p :: ps) y ↔ isTag [p] y ∨ isTag ps y.
Proof.
  unfold isTag. setoid_rewrite elem_of_cons. setoid_rewrite elem_of_nil.
  naive_solver.
Qed.

Lemma elem_of_collected ps tags y :
  y ∈ foldl addTechs tags ps ↔ y ∈ tags ∨ isTag ps y.
Proof.
  revert tags. induction ps as [|p ps IH]; intros tags; simpl.
  - unfold isTag. setoid_rewrite elem_of_nil. naive_solver.
  - rewrite IH, elem_of_addTechs, (isTag_cons p ps y). tauto.
Qed.

Lemma NoDup_collected ps tags : NoDup tags → NoDup (foldl addTechs tags ps).
Proof.
  revert tags. induction ps as [|p ps IH]; intros tags Hn; simpl; [done|].
  by apply IH, NoDup_addTechs.
Qed.

Lemma elem_of_allTags ps y : y ∈ allTags ps ↔ isTag ps y.
Proof.
  unfold allTags, Js.sort. rewrite merge_sort_Permutation, elem_of_collected.
  rewrite elem_of_nil. tauto.
Qed.

Lemma NoDup_allTags ps : NoDup (allTags ps).
Proof.
  unfold allTags, Js.sort. rewrite merge_sort_Permutation.
  apply NoDup_collected, NoDup_nil_2.
Qed.

Lemma sorted_allTags ps : StronglySorted String.le (allTags ps).
Proof. apply (StronglySorted_merge_sort _). Qed.

(** The sorted list of a set of strings is unique, so the result does not
    depend on how [sort] sorts. *)
Lemma sorted_unique (l1 l2 : list string) :
  (∀ x, x ∈ l1 ↔ x ∈ l2) → NoDup l1 → NoDup l2 →
  StronglySorted String.le l1 → StronglySorted String.le l2 → l1 = l2.
Proof.
  intros Hin H1 H2 S1 S2. apply (StronglySorted_unique String.le); [done..|].
  by apply NoDup_Permutation.
Qed.

(** C8. For every list of loaded projects, [allTags] holds exactly the tags
    of the projects (the non-empty trimmed comma-separated pieces of their
    technology texts), each once, in ascending lexicographic order; a list
    of projects with the same tags, whatever its order and however often a
    piece repeats, gives the same result. *)
Theorem allTags_sorted_set (ps : list Project) :
  (∀ x, x ∈ allTags ps ↔ isTag ps x) ∧
  NoDup (allTags ps) ∧
  StronglySorted String.le (allTags ps) ∧
  (∀ ps', (∀ x, isTag ps' x ↔ isTag ps x) → allTags ps' = allTags ps) ∧
  (∀ ps', ps' ≡ₚ ps → allTags ps' = allTags ps).
Proof.
  assert (Hsame : ∀ ps', (∀ x, isTag ps' x ↔ isTag ps x) → allTags ps' = allTags ps).
  { intros ps' Hps'. apply sorted_unique;
      auto using NoDup_allTags, sorted_allTags.
    intros x. by rewrite !elem_of_allTags. }
  split; [apply elem_of_allTags|]. split; [apply NoDup_allTags|].
  split; [apply sorted_allTags|]. split; [done|].
  intros ps' Hperm. apply Hsame. intros x. unfold isTag.
  by setoid_rewrite Hperm.
Qed.

(** ** Tag filter *)

Lemma startsWith_spec s p :
  Js.startsWith s p = true ↔ ∃ rest, s = p +:+ rest.
Proof.
  revert s. induction p as [|b p IH]; intros s; simpl.
  - split; [|done]. intros _. by exists s.
  - destruct s as [|a s]; simpl.
    + split; [done|]. intros [rest Hrest]. by rewrite append_cons in Hrest.
    + rewrite andb_true_iff, bool_decide_eq_true, IH. split.
      * intros [-> [rest ->]]. by exists rest.
      * intros [rest Hrest]. rewrite append_cons in Hrest.
        injection Hrest as -> ->. split; [done|]. by exists rest.
Qed.

Lemma includes_spec s sub :
  Js.includes s sub = true ↔ ∃ pre post, s = pre +:+ sub +:+ post.
Proof.
  induction s as [|a s IH]; simpl; rewrite orb_true_iff, startsWith_spec.
  - split.
    + intros [[rest ->]|?]; [|done]. by exists EmptyString, rest.
    + intros (pre & post & H). left. destruct pre; [by exists post|].
      by rewrite append_cons in H.
  - rewrite IH. split.
    + intros [[rest ->]|(pre & post & ->)]; [by exists EmptyString, rest|].
      by exists (String a pre), post.
    + intros (pre & post & H). destruct pre as [|c pre].
      * left. by exists post.
      * right. rewrite append_cons in H. injection H as -> ->. by exists pre, post.
Qed.

Lemma toLowerCase_append s t :
  Js.toLowerCase (s +:+ t) = Js.toLowerCase s +:+ Js.toLowerCase t.
Proof.
  induction s as [|c s IH]; [done|].
  rewrite append_cons. simpl. by rewrite IH, append_cons.
Qed.

Lemma toLowerCase_split s a b :
  Js.toLowerCase s = a +:+ b →
  ∃ a' b', s = a' +:+ b' ∧ Js.toLowerCase a' = a ∧ Js.toLowerCase b' = b.
Proof.
  revert s. induction a as [|c a IH]; intros s H.
  - by exists EmptyString, s.
  - destruct s as [|d s]; [done|]. rewrite append_cons in H. simpl in H.
    injection H as Hc Hs. destruct (IH _ Hs) as (a' & b' & -> & <- & <-).
    exists (String d a'), b'. simpl. by rewrite Hc.
Qed.

Lemma matchesTag_spec tag p :
  matchesTag (Js.toLowerCase tag) p = true ↔ hasTag tag p.
Proof.
  unfold matchesTag, hasTag, containsIgnoringCase, sameIgnoringCase.
  destruct (technologies p) as [text|]; [|naive_solver].
  rewrite includes_spec. split.
  - intros (pre & post & H). apply toLowerCase_split in H as (pre' & r & -> & <- & H).
    apply toLowerCase_split in H as (mid & post' & -> & H & <-).
    exists (pre' +:+ mid +:+ post'). split; [done|]. by exists pre', mid, post'.
  - intros (text' & [= <-] & pre & mid & post & -> & H).
    exists (Js.toLowerCase pre), (Js.toLowerCase post).
    by rewrite !toLowerCase_append, H.
Qed.

Lemma filteredProjects_active ps tag (dec : ∀ p, Decision (hasTag tag p)) :
  tag ≠ EmptyString → filteredProjects ps (Some tag) = filter (hasTag tag) ps.
Proof.
  intros Hne%truthy_true. unfold filteredProjects. rewrite Hne. simpl.
  induction ps as [|p ps IH]; [done|]. simpl. rewrite filter_cons, IH.
  destruct (matchesTag _ p) eqn:Hp; case_decide as Hd; try done.
  - by apply matchesTag_spec in Hp.
  - apply matchesTag_spec in Hd. congruence.
Qed.

(** C9. From a state in which tag [T] is not the active one, selecting [T]
    makes [T] the one active tag, and the displayed list is then exactly the
    projects whose technology text contains [T] as a substring, case
    ignored (in the order of the list); selecting [T] again leaves no tag
    active and the displayed list is the unfiltered list. *)
Theorem tag_filter_toggle (ps : list Project) (active : option string)
    (T : string) (dec : ∀ p, Decision (hasTag T p)) :
  T ≠ EmptyString → active ≠ Some T →
  let once := handleTagClick active T in
  let twice := handleTagClick once T in
  once = Some T ∧
  filteredProjects ps once = filter (hasTag T) ps ∧
  twice = None ∧
  filteredProjects ps twice = ps ∧
  filteredProjects ps twice = filteredProjects ps None.
Proof.
  intros HT Hactive. simpl. unfold handleTagClick.
  rewrite (bool_decide_eq_false_2 _ Hactive).
  rewrite (bool_decide_eq_true_2 (Some T = Some T) eq_refl).
  split; [done|]. split; [by apply filteredProjects_active|]. done.
Qed.

Lemma tag_filter_toggle_witness :
  let ps := [ofRow {["technologies"%string := "React, MySQL"%string]};
             ofRow {["technologies"%string := "PHP"%string]}] in
  "mysql"%string ≠ EmptyString ∧ None ≠ Some "mysql"%string ∧
  filteredProjects ps (handleTagClick None "mysql")
  = [ofRow {["technologies"%string := "React, MySQL"%string]}] ∧
  filteredProjects ps (handleTagClick (handleTagClick None "mysql") "mysql") = ps.
Proof.
  intros ps.
  assert (dec : ∀ p, Decision (hasTag "mysql" p)).
  { intros p. destruct (matchesTag (Js.toLowerCase "mysql") p) eqn:E.
    - left. by apply matchesTag_spec.
    - right. intros H%matchesTag_spec. congruence. }
  assert (HT : "mysql"%string ≠ EmptyString) by discriminate.
  assert (Hactive : None ≠ Some "mysql"%string) by discriminate.
  split; [exact HT|]. split; [exact Hactive|].
  destruct (tag_filter_toggle ps None "mysql" dec HT Hactive) as (_ & _ & _ & H & _).
  split; [vm_compute; reflexivity|exact H].
Defined.

(** ** Project repository client *)

Lemma sent_settle resp l m r : sent (settle resp l m r) = sent r.
Proof. unfold settle. by destruct (awaited resp). Qed.

Lemma projects_settle resp l m r : projects (settle resp l m r) = projects r.
Proof. unfold settle. by destruct (awaited resp). Qed.

Lemma error_settle_ok resp l m r :
  succeeded resp → error (settle resp l m r) = None.
Proof. intros [x Hx]. unfold settle. by rewrite Hx. Qed.

Lemma error_settle_failed resp l m r :
  ¬ succeeded resp → error (settle resp l m r) = Some m.
Proof.
  intros Hno. unfold settle. destruct (awaited resp) eqn:E; [|done].
  destruct Hno. by eexists.
Qed.

Lemma sent_fetchProjects client uid r :
  sent (fetchProjects client uid r) = sent r ++ [fetchRequest uid].
Proof.
  unfold fetchProjects.
  by destruct (awaited (client (fetchRequest uid))) as [[data|]|].
Qed.

Lemma sent_addProject client uid p r :
  Js.truthy uid = true →
  sent (addProject (Some client) (Some uid) p r) = sent r ++ [insertRequest uid p].
Proof. intros H. unfold addProject. rewrite H. by rewrite sent_settle. Qed.

Lemma sent_updateProject client uid id changes r :
  Js.truthy uid = true →
  sent (updateProject (Some client) (Some uid) id changes r)
  = sent r ++ [updateRequest id changes].
Proof. intros H. unfold updateProject. rewrite H. by rewrite sent_settle. Qed.

Lemma sent_deleteProject client uid id r :
  Js.truthy uid = true →
  sent (deleteProject (Some client) (Some uid) id r) = sent r ++ [deleteRequest id].
Proof. intros H. unfold deleteProject. rewrite H. by rewrite sent_settle. Qed.

(** The update request of owner "owner-1" for the project 7 has the one
    filter [id = 7]: it is not confined to the owner's rows. *)
Lemma update_request_not_owner_scoped : ¬ everyRequestOwnerScoped.
Proof.
  intros H.
  specialize (H granting "owner-1"%string initialRepo ∅
                {["title"%string := "New title"%string]} "7"%string eq_refl
                (updateProject (Some granting) (Some "owner-1"%string) "7"%string
                   {["title"%string := "New title"%string]} initialRepo)).
  specialize (H ltac:(set_solver)
                (updateRequest "7" {["title"%string := "New title"%string]})).
  rewrite sent_updateProject in H by done.
  specialize (H ltac:(set_solver) ltac:(set_solver)).
  unfold ownerScoped, ownerFiltered in H. simpl in H.
  apply list_elem_of_singleton in H. discriminate H.
Qed.

(** C1 (amended). With a resolved identity [uid], each operation sends
    exactly one request to the [projects] table: the list query filters on
    [owner_id = uid]; create inserts a row whose [owner_id] is [uid],
    whatever the caller put there; update and delete carry the single filter
    [id = id] and no filter on the owner, and update leaves [id] out of the
    changes. *)
Theorem requests_by_operation (client : Client) (uid : string) (r : Repo)
    (newProject changes : Row) (id : string) :
  Js.truthy uid = true →
  (∃ q, sent (fetchProjects client uid r) = sent r ++ [q] ∧
        Supabase.table q = TABLE_NAME ∧ Supabase.verb q = Supabase.Select "*" ∧
        Supabase.filters q = [("owner_id"%string, uid)] ∧ ownerFiltered uid q) ∧
  (∃ q row, sent (addProject (Some client) (Some uid) newProject r) = sent r ++ [q] ∧
        Supabase.table q = TABLE_NAME ∧ Supabase.verb q = Supabase.Insert row ∧
        row !! "owner_id"%string = Some uid ∧
        (∀ k, k ≠ "owner_id"%string → row !! k = newProject !! k) ∧
        Supabase.filters q = []) ∧
  (∃ q sentChanges, sent (updateProject (Some client) (Some uid) id changes r) = sent r ++ [q] ∧
        Supabase.table q = TABLE_NAME ∧ Supabase.verb q = Supabase.Update sentChanges ∧
        sentChanges !! "id"%string = None ∧
        (∀ k, k ≠ "id"%string → sentChanges !! k = changes !! k) ∧
        Supabase.filters q = [("id"%string, id)] ∧ ¬ ownerFiltered uid q) ∧
  (∃ q, sent (deleteProject (Some client) (Some uid) id r) = sent r ++ [q] ∧
        Supabase.table q = TABLE_NAME ∧ Supabase.verb q = Supabase.Delete ∧
        Supabase.filters q = [("id"%string, id)] ∧ ¬ ownerFiltered uid q).
Proof.
  intros Huid. repeat split.
  - exists (fetchRequest uid). rewrite sent_fetchProjects.
    repeat split; try done. unfold ownerFiltered. simpl. set_solver.
  - exists (insertRequest uid newProject), (<["owner_id"%string := uid]> newProject).
    rewrite sent_addProject by done. repeat split; try done.
    + apply lookup_insert_eq.
    + intros k Hk. by apply lookup_insert_ne.
  - exists (updateRequest id changes), (base.delete "id"%string changes).
    rewrite sent_updateProject by done. repeat split; try done.
    + apply lookup_delete_eq.
    + intros k Hk. by apply lookup_delete_ne.
    + unfold ownerFiltered. simpl. intros H%list_elem_of_singleton. discriminate H.
  - exists (deleteRequest id). rewrite sent_deleteProject by done.
    repeat split; try done.
    unfold ownerFiltered. simpl. intros H%list_elem_of_singleton. discriminate H.
Qed.

Lemma requests_by_operation_witness :
  Js.truthy "owner-1" = true ∧
  ∃ q, sent (deleteProject (Some granting) (Some "owner-1"%string) "7" initialRepo)
       = sent initialRepo ++ [q] ∧
       Supabase.filters q = [("id"%string, "7"%string)].
Proof.
  split; [reflexivity|].
  destruct (requests_by_operation granting "owner-1" initialRepo ∅ ∅ "7" eq_refl)
    as (_ & _ & _ & q & Hq & _ & _ & Hf & _).
  exists q. split; [exact Hq|exact Hf].
Defined.

(** A list loaded by an earlier query, here one project, is still there
    after a later query fails. *)
Lemma failed_query_keeps_loaded_list : ¬ failedQueryLeavesListEmpty.
Proof.
  intros H.
  assert (Hfail : queryFailed (refusing (fetchRequest "owner-1")))
    by (intros data; discriminate).
  specialize (H refusing "owner-1"%string
                (setProjects [ofRow {["id"%string := "7"%string]}] initialRepo) Hfail).
  discriminate H.
Qed.

(** C4 (amended). When the list query fails (the await rejects, the answer
    carries an error, or it carries no data), [fetchProjects] stores the
    fixed error string, leaves the in-memory list as it was (so empty when
    no query has succeeded before), ends loading, and has sent the one
    query and nothing more: no retry. *)
Theorem failed_query_surfaces_error (client : Client) (uid : string) (r : Repo) :
  queryFailed (client (fetchRequest uid)) →
  let r' := fetchProjects client uid r in
  error r' = Some LOAD_FAILED ∧
  projects r' = projects r ∧
  (projects r = [] → projects r' = []) ∧
  loading r' = false ∧
  sent r' = sent r ++ [fetchRequest uid].
Proof.
  intros Hfail. cbv zeta. rewrite sent_fetchProjects. unfold fetchProjects.
  destruct (awaited (client (fetchRequest uid))) as [[data|]|] eqn:E;
    [by destruct (Hfail data)|done..].
Qed.

Lemma failed_query_surfaces_error_witness :
  queryFailed (refusing (fetchRequest "owner-1")) ∧
  error (fetchProjects refusing "owner-1" initialRepo) = Some LOAD_FAILED ∧
  projects (fetchProjects refusing "owner-1" initialRepo) = [] ∧
  sent (fetchProjects refusing "owner-1" initialRepo) = [fetchRequest "owner-1"].
Proof.
  assert (Hfail : queryFailed (refusing (fetchRequest "owner-1"))).
  { intros data. discriminate. }
  split; [exact Hfail|].
  destruct (failed_query_surfaces_error refusing "owner-1" initialRepo Hfail)
    as (He & _ & Hp & _ & Hs).
  split; [exact He|]. split; [exact (Hp eq_refl)|exact Hs].
Defined.

(** The handle is unset exactly when the URL or the key is not configured. *)
Lemma supabase_unset cfg createClient :
  supabase cfg createClient = None ↔
  Js.truthy_opt (VITE_SUPABASE_URL cfg) = false ∨
  Js.truthy_opt (VITE_SUPABASE_ANON_KEY cfg) = false.
Proof.
  unfold supabase.
  destruct (VITE_SUPABASE_URL cfg) as [url|], (VITE_SUPABASE_ANON_KEY cfg) as [key|];
    simpl; try tauto.
  destruct (Js.truthy url), (Js.truthy key); simpl; naive_solver.
Qed.

Lemma addProject_not_ready sb uid p r :
  sb = None ∨ Js.truthy_opt uid = false →
  addProject sb uid p r = setError (Some NOT_READY) r.
Proof.
  unfold addProject. intros [->|Huid]; [done|].
  destruct sb, uid as [u|]; try done. simpl in Huid. by rewrite Huid.
Qed.

(** C6. When the service handle is unset or the identity is missing
    ([null] or empty), create, update and delete each do nothing but store
    the fixed error string "Error: Supabase not ready or User ID missing.":
    no request is sent, and list, loading flag and console are as before. *)
Theorem mutations_not_ready (sb : option Client) (uid : option string)
    (r : Repo) (newProject changes : Row) (id : string) :
  sb = None ∨ Js.truthy_opt uid = false →
  ∀ r', r' ∈ [addProject sb uid newProject r;
              updateProject sb uid id changes r;
              deleteProject sb uid id r] →
    r' = setError (Some NOT_READY) r ∧
    error r' = Some "Error: Supabase not ready or User ID missing."%string ∧
    Js.includes NOT_READY "Supabase not ready or User ID missing" = true ∧
    sent r' = sent r ∧ projects r' = projects r ∧ loading r' = loading r ∧
    console r' = console r.
Proof.
  intros Hnot r' Hr'.
  assert (r' = setError (Some NOT_READY) r) as ->; [|done].
  unfold addProject, updateProject, deleteProject in Hr'.
  destruct Hnot as [->|Huid].
  - set_solver.
  - destruct sb as [client|], uid as [u|]; simpl in Huid; try rewrite Huid in Hr';
      set_solver.
Qed.

Lemma mutations_not_ready_witness :
  ((None : option Client) = None ∨ Js.truthy_opt (Some "owner-1"%string) = false) ∧
  addProject None (Some "owner-1"%string) ∅ initialRepo
  = setError (Some NOT_READY) initialRepo ∧
  sent (addProject None (Some "owner-1"%string) ∅ initialRepo) = [].
Proof.
  assert (H : (None : option Client) = None ∨
              Js.truthy_opt (Some "owner-1"%string) = false) by (left; reflexivity).
  split; [exact H|].
  destruct (mutations_not_ready None (Some "owner-1"%string) initialRepo ∅ ∅ "7" H
              (addProject None (Some "owner-1"%string) ∅ initialRepo))
    as (H1 & _ & _ & H2 & _).
  - left.
  - split; [exact H1|exact H2].
Defined.

(** C10. With handle and identity in place, every operation whose request
    succeeds leaves the error state [null], whatever error an earlier
    operation had stored: the list query that returns data, and a create,
    update or delete whose answer carries no error. *)
Theorem success_clears_error (client : Client) (uid : string) (r : Repo)
    (newProject changes : Row) (id : string) :
  Js.truthy uid = true →
  ((∃ data, awaited (client (fetchRequest uid)) = Some (Some data)) →
   error (fetchProjects client uid r) = None) ∧
  (succeeded (client (insertRequest uid newProject)) →
   error (addProject (Some client) (Some uid) newProject r) = None) ∧
  (succeeded (client (updateRequest id changes)) →
   error (updateProject (Some client) (Some uid) id changes r) = None) ∧
  (succeeded (client (deleteRequest id)) →
   error (deleteProject (Some client) (Some uid) id r) = None).
Proof.
  intros Huid. unfold addProject, updateProject, deleteProject. rewrite Huid.
  split; [|auto using error_settle_ok].
  intros [data Hdata]. unfold fetchProjects. by rewrite Hdata.
Qed.

Lemma success_clears_error_witness :
  let stale := setError (Some LOAD_FAILED) initialRepo in
  Js.truthy "owner-1" = true ∧
  error stale = Some LOAD_FAILED ∧
  error (fetchProjects granting "owner-1" stale) = None ∧
  error (deleteProject (Some granting) (Some "owner-1"%string) "7" stale) = None.
Proof.
  intros stale. split; [reflexivity|]. split; [reflexivity|].
  destruct (success_clears_error granting "owner-1" stale ∅ ∅ "7" eq_refl)
    as (Hf & _ & _ & Hd).
  split; [apply Hf; by exists []|apply Hd; by eexists].
Defined.

(** ** Manager mode *)

(** Identity "xyz" against owner "abc123": the toggle is refused, manager
    mode stays off, and the block under [isManagerMode && !canManage] is
    not rendered. *)
Lemma refused_toggle_renders_nothing : ¬ refusedToggleRendersAccessDenied.
Proof.
  intros H.
  assert (Hdiff : "xyz"%string ≠ "abc123"%string) by discriminate.
  specialize (H granting "abc123"%string "unused"%string "xyz"%string
                {[STORAGE_KEY := "xyz"%string]} eq_refl eq_refl Hdiff).
  discriminate H.
Qed.

Lemma mounted_identity client owner uuid storage identity :
  Js.truthy owner = true →
  userId (mounted (Some client) (Some owner) uuid storage) = Some identity →
  canManage (mounted (Some client) (Some owner) uuid storage)
  = bool_decide (identity = owner).
Proof.
  unfold mounted, authEffect, canManage. simpl. intros -> [= <-]. simpl.
  by case_bool_decide.
Qed.

(** C5 (amended). Let the identity hook resolve [identity] against the
    configured owner token.  If they are equal, the toggle turns manager
    mode on and the owner-only panels render.  If they differ, the toggle
    is refused: manager mode stays off, the only trace is the access-denied
    warning written to the console, and the page renders neither the
    owner-only panels nor the access-denied block. *)
Theorem manager_toggle_gate (client : Client) (owner uuid identity : string)
    (storage : gmap string string) (u : Ui) :
  Js.truthy owner = true →
  userId (mounted (Some client) (Some owner) uuid storage) = Some identity →
  isManagerMode u = false →
  let a := mounted (Some client) (Some owner) uuid storage in
  let u' := handleToggleManager a u in
  (identity = owner →
     isManagerMode u' = true ∧ rendersManagerPanels a u' = true ∧
     rendersAccessDenied a u' = false ∧ warnings u' = warnings u) ∧
  (identity ≠ owner →
     isManagerMode u' = false ∧ rendersManagerPanels a u' = false ∧
     rendersAccessDenied a u' = false ∧
     warnings u' = warnings u ++ [ACCESS_DENIED_WARNING] ∧
     activeTag u' = activeTag u ∧ currentProject u' = currentProject u).
Proof.
  intros Howner Hid Hoff a u'.
  pose proof (mounted_identity _ _ _ _ _ Howner Hid) as Hcan. fold a in Hcan.
  subst u'. unfold handleToggleManager, rendersManagerPanels, rendersAccessDenied.
  rewrite Hcan. split; intros Hcmp.
  - rewrite (bool_decide_eq_true_2 _ Hcmp). cbn. by rewrite Hoff.
  - rewrite (bool_decide_eq_false_2 _ Hcmp). cbn. by rewrite Hoff.
Qed.

Lemma manager_toggle_gate_witness :
  let a := mounted (Some granting) (Some "abc123"%string) "unused"
             {[STORAGE_KEY := "abc123"%string]} in
  Js.truthy "abc123" = true ∧ userId a = Some "abc123"%string ∧
  isManagerMode initialUi = false ∧
  isManagerMode (handleToggleManager a initialUi) = true ∧
  rendersManagerPanels a (handleToggleManager a initialUi) = true.
Proof.
  intros a.
  assert (Hid : userId a = Some "abc123"%string) by reflexivity.
  split; [reflexivity|]. split; [exact Hid|]. split; [reflexivity|].
  destruct (manager_toggle_gate granting "abc123" "unused" "abc123"
              {[STORAGE_KEY := "abc123"%string]} initialUi eq_refl Hid eq_refl)
    as [Hown _].
  destruct (Hown eq_refl) as (H1 & H2 & _). split; [exact H1|exact H2].
Defined.

(** X9. Whatever happens on the page, manager mode is on only for a viewer
    who can manage, so the access-denied block is never rendered. *)
Lemma manager_mode_implies_canManage sb owner (evs : list UiEvent) :
  let s := foldl (uiStep sb owner) (initialAuth, initialUi) evs in
  (isManagerMode s.2 = true → canManage s.1 = true) ∧
  rendersAccessDenied s.1 s.2 = false.
Proof.
  cbv zeta.
  assert (Hinv : ∀ s : Auth * Ui,
             (isManagerMode s.2 = true → canManage s.1 = true) →
             ∀ ev, let s' := uiStep sb owner s ev in
                   isManagerMode s'.2 = true → canManage s'.1 = true).
  { intros [a u] Hs ev. destruct ev as [uuid storage| |tag]; simpl in *.
    - intros Hm. specialize (Hs Hm). unfold canManage in *.
      apply andb_true_iff in Hs as [_ Hs].
      unfold authEffect. destruct sb; simpl; [|by rewrite Hs].
      rewrite Hs. by destruct owner as [o|]; [destruct (_ && _)|].
    - unfold rendersToggle. destruct (isAuthReady a) eqn:Hr; simpl; [|done].
      unfold handleToggleManager. destruct (canManage a) eqn:Hc; simpl; done.
    - done. }
  assert (Hall : ∀ evs s,
             (isManagerMode s.2 = true → canManage s.1 = true) →
             let s' := foldl (uiStep sb owner) s evs in
             isManagerMode s'.2 = true → canManage s'.1 = true).
  { clear evs. intros evs. induction evs as [|ev evs IH]; intros s Hs; simpl; [done|].
    apply IH. by apply Hinv. }
  specialize (Hall evs (initialAuth, initialUi) ltac:(done)). simpl in Hall.
  split; [done|]. unfold rendersAccessDenied.
  destruct (isManagerMode _) eqn:Hm; [|done]. by rewrite Hall.
Qed.

(** ** Description-drafting client *)

(** Two network errors, then the text " A booking site. ": the description
    shown is "A booking site.", without the spaces around it. *)
Lemma third_text_is_trimmed : ¬ thirdTextShownVerbatim.
Proof.
  intros H.
  specialize (H "Shop"%string "PHP"%string " A booking site. "%string
                (fun n => if n =? 3 then answer " A booking site. "
                          else Gemini.NetworkError)
                blankDraft eq_refl eq_refl eq_refl eq_refl eq_refl eq_refl).
  discriminate H.
Qed.

(** An answer that is not ok, has no readable body, or has no text in its
    first candidate makes the attempt fail. *)
Lemma attemptText_None res :
  attemptText res = None ↔
  res = Gemini.NetworkError ∨
  (∃ status body, res = Gemini.Http false status body) ∨
  (∃ status, res = Gemini.Http true status None) ∨
  (∃ status e, res = Gemini.Http true status (Some e) ∧
               (Gemini.firstText e = None ∨ Gemini.firstText e = Some EmptyString)).
Proof.
  destruct res as [|[] status [e|]]; simpl.
  - naive_solver.
  - destruct (Gemini.firstText e) as [[|c t]|] eqn:E; simpl; split; try done.
    + intros _. right; right; right. exists status, e. by rewrite E; auto.
    + intros [?|[(?&?&?)|[(?&?)|(?&?&[= _ <-]&[?|?])]]]; congruence.
    + intros _. right; right; right. exists status, e. by rewrite E; auto.
  - naive_solver.
  - naive_solver.
  - naive_solver.
Qed.

(** C3 (amended). A drafting call with non-empty title and technologies
    makes at most three requests.  It stops at the first attempt [k] that
    yields a text and shows that text with the white space around it
    removed, with no error; before that it has waited 1000 ms after the
    first failure and 2000 ms after the second, the delay doubling.  A
    response without a first-candidate text is a failure like any other.
    When all three attempts fail it stores the final error and leaves the
    description alone. *)
Theorem drafting_retry_policy (title technologies : string)
    (api : nat → Gemini.FetchResult) (d : Draft) :
  Js.truthy title = true → Js.truthy technologies = true →
  let d' := generateProjectDescription title technologies api d in
  let backoff := [INITIAL_DELAY_MS; 2 * INITIAL_DELAY_MS] in
  isLoading d' = false ∧
  fetches d' ≤ fetches d + MAX_RETRIES ∧
  (∀ status e, Gemini.firstText e = None →
               attemptText (Gemini.Http true status (Some e)) = None) ∧
  (∀ k text, 1 ≤ k ≤ MAX_RETRIES →
     (∀ j, 1 ≤ j < k → attemptText (api j) = None) →
     attemptText (api k) = Some text →
     description d' = Js.trim text ∧ draftError d' = None ∧
     fetches d' = fetches d + k ∧ sleeps d' = sleeps d ++ take (k - 1) backoff) ∧
  ((∀ j, 1 ≤ j ≤ MAX_RETRIES → attemptText (api j) = None) →
     draftError d' = Some "Failed to generate description after multiple attempts."%string ∧
     description d' = description d ∧
     fetches d' = fetches d + MAX_RETRIES ∧ sleeps d' = sleeps d ++ backoff).
Proof.
  intros Ht Hk. unfold generateProjectDescription. rewrite Ht, Hk. cbn zeta.
  unfold MAX_RETRIES, INITIAL_DELAY_MS. simpl.
  destruct (attemptText (api 1)) as [t1|] eqn:E1; simpl;
    [|destruct (attemptText (api 2)) as [t2|] eqn:E2; simpl;
      [|destruct (attemptText (api 3)) as [t3|] eqn:E3; simpl]].
  all: split; [done|]; split; [lia|]; split;
    [intros status e He; by rewrite He|]; split.
  all: try (intros k text Hrange Hfail Hok;
            assert (k = 1 ∨ k = 2 ∨ k = 3) as [-> | [-> | ->]] by lia;
            try (rewrite (Hfail 1) in E1 by lia; discriminate E1);
            try (rewrite (Hfail 2) in E2 by lia; discriminate E2);
            try congruence; simplify_eq; simpl;
            rewrite ?app_nil_r, <- ?app_assoc; repeat split; (done || lia)).
  all: try (intros Hall;
            try (rewrite (Hall 1) in E1 by lia; discriminate E1);
            try (rewrite (Hall 2) in E2 by lia; discriminate E2);
            try (rewrite (Hall 3) in E3 by lia; discriminate E3)).
  rewrite <- app_assoc. repeat split; (done || lia).
Qed.

Lemma drafting_retry_policy_witness :
  let api := fun n => if n =? 3 then answer " A booking site. "
                      else Gemini.NetworkError in
  let d' := generateProjectDescription "Shop" "PHP" api blankDraft in
  Js.truthy "Shop" = true ∧ Js.truthy "PHP" = true ∧
  description d' = "A booking site."%string ∧ draftError d' = None ∧
  fetches d' = 3 ∧ sleeps d' = [1000; 2000].
Proof.
  intros api d'. split; [reflexivity|]. split; [reflexivity|].
  destruct (drafting_retry_policy "Shop" "PHP" api blankDraft eq_refl eq_refl)
    as (_ & _ & _ & Hfirst & _).
  destruct (Hfirst 3 " A booking site. "%string) as (H1 & H2 & H3 & H4).
  - unfold MAX_RETRIES. lia.
  - intros j Hj. assert (j = 1 ∨ j = 2) as [->| ->] by lia; reflexivity.
  - reflexivity.
  - split; [exact H1|]. split; [exact H2|]. split; [exact H3|exact H4].
Defined.

(** ** Debounce utility *)

Lemma last_cons {X} (x d : X) (l : list X) : List.last (x :: l) d = List.last l x.
Proof.
  revert x d. induction l as [|y l IH]; intros x d; [done|].
  change (List.last (x :: y :: l) d) with (List.last (y :: l) d).
  by rewrite (IH y d), (IH y x).
Qed.

Section DebounceFacts.
Context {A W : Type} (func : A → W → W) (delay : nat).

Lemma invoke_fresh w t a :
  armed delay (Debounce.invoke func delay (Debounce.fresh w) (t, a)) t a w.
Proof. exists 1. by cbn. Qed.

Lemma invoke_armed s t a w t' a' :
  armed delay s t a w → t ≤ t' →
  armed delay (Debounce.invoke func delay s (t', a')) t' a'
        (if t + delay <? t' then func a w else w).
Proof.
  destruct s as [[now nid tms] tid w0]. intros (id & Htms & Htid & Hnow & Hw) Hle.
  cbn in Htms, Htid, Hnow, Hw. subst tms tid now w0.
  unfold Debounce.invoke, Debounce.arrive.
  cbn [Debounce.loop Debounce.timeoutId Debounce.world EventLoop.timers length
       EventLoop.runBefore EventLoop.nextDue EventLoop.due EventLoop.task fst snd].
  destruct (t + delay <? t') eqn:Hdue; cbn; repeat (rewrite Nat.eqb_refl; cbn).
  - apply Nat.ltb_lt in Hdue. exists nid. repeat split; cbn; [|lia]. do 2 f_equal. lia.
  - exists nid. repeat split; cbn; [|lia]. do 2 f_equal. lia.
Qed.

Lemma elapse_armed s t a w T :
  armed delay s t a w →
  Debounce.world (Debounce.elapse func T s)
  = if t + delay <=? T then func a w else w.
Proof.
  destruct s as [[now nid tms] tid w0]. intros (id & Htms & Htid & Hnow & Hw).
  cbn in Htms, Htid, Hnow, Hw. subst tms tid now w0.
  unfold Debounce.elapse. cbn.
  destruct (t + delay <=? T) eqn:Hdue; cbn; repeat (rewrite Nat.eqb_refl; cbn); done.
Qed.

(** Calls made in one turn, whatever the delay: the later call clears the
    timer of the earlier one, and the action runs for the later call only. *)
Lemma same_turn_calls_coalesce w t a b T :
  t + delay < T →
  Debounce.world
    (Debounce.elapse func T
       (Debounce.invokeAll func delay [(t, a); (t, b)] (Debounce.fresh w)))
  = func b w.
Proof.
  intros HT.
  pose proof (invoke_armed _ t a w t b (invoke_fresh w t a) (Nat.le_refl t)) as Hs.
  replace (t + delay <? t) with false in Hs by (symmetry; apply Nat.ltb_ge; lia).
  change (Debounce.invokeAll func delay [(t, a); (t, b)] (Debounce.fresh w))
    with (Debounce.invoke func delay
            (Debounce.invoke func delay (Debounce.fresh w) (t, a)) (t, b)).
  rewrite (elapse_armed _ _ _ _ _ Hs).
  by replace (t + delay <=? T) with true by (symmetry; apply Nat.leb_le; lia).
Qed.

(** The followers of a burst only replace the pending timer. *)
Lemma invokeAll_followers calls s t a w :
  armed delay s t a w → withinWindow delay t calls →
  armed delay (Debounce.invokeAll func delay calls s)
        (List.last calls (t, a)).1 (List.last calls (t, a)).2 w.
Proof.
  revert s t a. induction calls as [|[t' a'] calls IH]; intros s t a Hs Hwin.
  - done.
  - destruct Hwin as [[Hle Hlt] Hwin]. cbn in Hle, Hlt, Hwin.
    unfold Debounce.invokeAll. cbn [foldl].
    pose proof (invoke_armed s t a w t' a' Hs Hle) as Hs'.
    replace (t + delay <? t') with false in Hs'
      by (symmetry; apply Nat.ltb_ge; lia).
    specialize (IH _ _ _ Hs' Hwin).
    rewrite last_cons. exact IH.
Qed.

Lemma invokeAll_app calls1 calls2 (s : Debounce.State A W) :
  Debounce.invokeAll func delay (calls1 ++ calls2) s
  = Debounce.invokeAll func delay calls2 (Debounce.invokeAll func delay calls1 s).
Proof. apply foldl_app. Qed.

(** After a first burst [b], the state is armed for the last call of the
    last burst, and the action has run once for every burst but the last,
    with the arguments of that burst's last call. *)
Lemma invokeAll_bursts rest b s w :
  armed delay s (lastCall b).1 (lastCall b).2 w →
  bursts delay (Some (lastCall b).1) rest →
  let final := List.last rest b in
  armed delay (Debounce.invokeAll func delay (concat (callsOf <$> rest)) s)
        (lastCall final).1 (lastCall final).2
        (foldl (fun w b => func (lastCall b).2 w) w (removelast (b :: rest))).
Proof.
  revert b s w. induction rest as [|b' rest IH]; intros b s w Hs Hb; cbn zeta.
  - done.
  - destruct Hb as (Hgap & Hwin & Hrest).
    rewrite fmap_cons. cbn [concat]. rewrite invokeAll_app.
    change (Debounce.invokeAll func delay (callsOf b') s)
      with (Debounce.invokeAll func delay (followers b')
              (Debounce.invoke func delay s (firstCall b'))).
    destruct (firstCall b') as [t' a'] eqn:Hfirst. cbn in Hgap, Hwin.
    assert (Hle : (lastCall b).1 ≤ t') by lia.
    pose proof (invoke_armed s _ _ w t' a' Hs Hle) as Hs'.
    replace ((lastCall b).1 + delay <? t') with true in Hs'
      by (symmetry; apply Nat.ltb_lt; lia).
    pose proof (invokeAll_followers (followers b') _ _ _ _ Hs' Hwin) as Hs''.
    assert (Hlast : List.last (followers b') (t', a') = lastCall b')
      by (unfold lastCall; by rewrite Hfirst).
    rewrite Hlast in Hs''.
    specialize (IH b' _ _ Hs'' Hrest). cbn zeta in IH.
    rewrite last_cons. exact IH.
Qed.


End DebounceFacts.


(** What the action preserves holds of the world at all times. *)
Lemma runUntil_invariant {Task X} (P : X → Prop) fuel t
    (handler : Task → EventLoop.Loop Task * X → EventLoop.Loop Task * X) s :
  (∀ task l x, P x → P (handler task (l, x)).2) →
  P s.2 → P (EventLoop.runUntil fuel t handler s).2.
Proof.
  intros Hh. revert s. induction fuel as [|fuel IH]; intros [l x] Hs;
    cbn [EventLoop.runUntil]; destruct (EventLoop.nextDue _) as [tm|]; try done;
    destruct (EventLoop.due tm <=? t); try done.
  apply IH. by apply Hh.
Qed.

Lemma runBefore_invariant {Task X} (P : X → Prop) fuel t
    (handler : Task → EventLoop.Loop Task * X → EventLoop.Loop Task * X) s :
  (∀ task l x, P x → P (handler task (l, x)).2) →
  P s.2 → P (EventLoop.runBefore fuel t handler s).2.
Proof.
  intros Hh. revert s. induction fuel as [|fuel IH]; intros [l x] Hs;
    cbn [EventLoop.runBefore]; destruct (EventLoop.nextDue _) as [tm|]; try done;
    destruct (EventLoop.due tm <? t); try done.
  apply IH. by apply Hh.
Qed.

Lemma debounce_invariant {A W} (P : W → Prop) (func : A → W → W) delay calls w t :
  (∀ a w, P w → P (func a w)) → P w →
  P (Debounce.world
       (Debounce.elapse func t (Debounce.invokeAll func delay calls (Debounce.fresh w)))).
Proof.
  intros Hf Hw.
  assert (Hel : ∀ t s, P (Debounce.world s) → P (Debounce.world (Debounce.elapse func t s))).
  { intros t' s Hs. unfold Debounce.elapse. cbn [Debounce.world].
    apply (runUntil_invariant (fun x => P x.2)); [|done].
    intros a l x Hx. by apply Hf. }
  assert (Har : ∀ t s, P (Debounce.world s) → P (Debounce.world (Debounce.arrive func t s))).
  { intros t' s Hs. unfold Debounce.arrive. cbn [Debounce.world].
    apply (runBefore_invariant (fun x => P x.2)); [|done].
    intros a l x Hx. by apply Hf. }
  apply Hel. unfold Debounce.invokeAll.
  generalize (Debounce.fresh (A:=A) w) (Hw : P (Debounce.world (Debounce.fresh (A:=A) w))).
  induction calls as [|c calls IH]; intros s Hs; [done|].
  cbn [foldl]. apply IH. unfold Debounce.invoke. cbn [Debounce.world]. by apply Har.
Qed.

(** X27. The create the hook hands out is [debounce(addProject, 300)].  Without
    handle or identity, however often and whenever it is called, no request
    is sent and the state is the one before or differs from it by the fixed
    error only. *)
Lemma debounced_create_not_ready (sb : option Client) (uid : option string)
    (r : Repo) (calls : list (nat * Row)) (t : nat) :
  sb = None ∨ Js.truthy_opt uid = false →
  let r' := Debounce.world
              (Debounce.elapse (addProject sb uid) t
                 (Debounce.invokeAll (addProject sb uid) ADD_DEBOUNCE_MS calls
                    (Debounce.fresh r))) in
  (r' = r ∨ r' = setError (Some NOT_READY) r) ∧ sent r' = sent r.
Proof.
  intros Hnot r'.
  assert (H : r' = r ∨ r' = setError (Some NOT_READY) r).
  { apply (debounce_invariant (fun w => w = r ∨ w = setError (Some NOT_READY) r));
      [|by left].
    intros p w Hw. right. rewrite (addProject_not_ready _ _ _ _ Hnot).
    by destruct Hw as [->| ->]. }
  split; [done|]. by destruct H as [->| ->].
Qed.

(** ** Seeding *)

(** Once a project exists (or while loading, or for a visitor who is not
    the owner) the seeding effect sets no timer. *)
Lemma seedEffect_guard isAppOwner loading add (s : Seeding.State) :
  isAppOwner = false ∨ loading = true ∨ projects (Seeding.repo s.2) ≠ [] →
  Seeding.seedEffect isAppOwner loading add s = (s, None).
Proof.
  unfold Seeding.seedEffect. intros [->|[->|Hne]]; [done|by rewrite orb_true_r|].
  destruct (projects (Seeding.repo s.2)); [done|]. cbn. by rewrite !orb_true_r.
Qed.

(** One callback comes due and runs; none is due and the clock moves on. *)
Lemma runUntil_fire {Task X} fuel t (handler : Task → EventLoop.Loop Task * X → EventLoop.Loop Task * X) s tm :
  EventLoop.nextDue (EventLoop.timers s.1) = Some tm → EventLoop.due tm ≤ t →
  EventLoop.runUntil (S fuel) t handler s
  = EventLoop.runUntil fuel t handler (handler (EventLoop.task tm) (EventLoop.fired tm s.1, s.2)).
Proof.
  intros Hnext Hdue%Nat.leb_le. cbn [EventLoop.runUntil]. by rewrite Hnext, Hdue.
Qed.

Lemma runUntil_idle {Task X} fuel t (handler : Task → EventLoop.Loop Task * X → EventLoop.Loop Task * X) s :
  EventLoop.nextDue (EventLoop.timers s.1) = None →
  EventLoop.runUntil fuel t handler s = (EventLoop.tick t s.1, s.2).
Proof. intros Hnext. destruct fuel; cbn [EventLoop.runUntil]; by rewrite Hnext. Qed.

(** C2. For the owner of a loaded, empty list, the seeding effect fires
    after 1500 ms and hands the three example projects to the debounced
    create one after the other; each call clears the timer of the call
    before it, so that 300 ms later a single insert is sent, for the last
    example ("Hangman App"), and no timer is left to send the other two. *)
Theorem seeding_inserts_last_example_only (client : Client) (uid : string)
    (r : Repo) (fuel t : nat) :
  Js.truthy uid = true → projects r = [] → loading r = false →
  2 ≤ fuel → SEED_DELAY_MS + ADD_DEBOUNCE_MS ≤ t →
  let s := Seeding.mountAndWait fuel t (Some client) (ownerAuth uid) r in
  length initialProjectsData = 3 ∧
  sent (Seeding.repo s.2) = sent r ++ [insertRequest uid hangmanApp] ∧
  EventLoop.timers s.1 = [].
Proof.
  intros Huid Hempty Hloaded Hfuel Ht s. split; [done|].
  destruct fuel as [|[|fuel]]; [lia..|]. subst s.
  unfold Seeding.mountAndWait, Seeding.render, Seeding.seedEffect. cbn [fst snd].
  cbn [Seeding.repo Seeding.closures isAppOwner ownerAuth negb orb].
  rewrite Hloaded, Hempty. cbn [length Nat.ltb Nat.leb Nat.eqb orb].
  unfold SEED_DELAY_MS, ADD_DEBOUNCE_MS in *.
  cbn [EventLoop.setTimeout EventLoop.start EventLoop.now EventLoop.nextId EventLoop.timers app fst snd].
  erewrite runUntil_fire; [|reflexivity|cbn; lia].
  cbn [EventLoop.task Seeding.handler].
  unfold initialProjectsData.
  generalize movieTicketBooking applicantTracking hangmanApp. intros p1 p2 p3.
  set (s1 := foldl (Seeding.callAddProject 0) _ _).
  assert (Hs1 : s1 = ({| EventLoop.now := 1500; EventLoop.nextId := 5;
                         EventLoop.timers := [EventLoop.mkTimer 4 1800 (Seeding.Add p3)] |},
                      {| Seeding.closures := [Some 4]; Seeding.repo := r |}))
    by reflexivity.
  rewrite Hs1. clear s1 Hs1.
  erewrite runUntil_fire; [|reflexivity|cbn [EventLoop.due]; lia].
  rewrite runUntil_idle by reflexivity.
  cbn -[addProject]. by rewrite sent_addProject.
Qed.

Lemma seeding_inserts_last_example_only_witness :
  let loaded := setLoading false initialRepo in
  let s := Seeding.mountAndWait 2 1800 (Some granting) (ownerAuth "owner-1") loaded in
  Js.truthy "owner-1" = true ∧ projects loaded = [] ∧ loading loaded = false ∧
  sent (Seeding.repo s.2) = [insertRequest "owner-1" hangmanApp].
Proof.
  intros loaded s. split; [reflexivity|]. split; [reflexivity|]. split; [reflexivity|].
  destruct (seeding_inserts_last_example_only granting "owner-1" loaded 2 1800
              eq_refl eq_refl eq_refl)
    as (_ & Hsent & _).
  - lia.
  - unfold SEED_DELAY_MS, ADD_DEBOUNCE_MS. lia.
  - exact Hsent.
Defined.

(** * Further properties *)

(** ** Strings *)

Lemma append_assoc (a b c : string) : (a +:+ b) +:+ c = a +:+ b +:+ c.
Proof. induction a as [|x a IH]; [done|]. by rewrite !append_cons, IH. Qed.

Lemma append_empty_r (a : string) : a +:+ EmptyString = a.
Proof. induction a as [|x a IH]; [done|]. by rewrite append_cons, IH. Qed.

Lemma has_append c (a b : string) : has c (a +:+ b) ↔ has c a ∨ has c b.
Proof.
  induction a as [|x a IH]; [simpl; rewrite append_empty_l; tauto|].
  rewrite append_cons. simpl. rewrite IH. tauto.
Qed.

Lemma has_trim c s : has c (Js.trim s) → has c s.
Proof.
  destruct (trim_spec s) as (pre & post & Hs & _). intros H.
  rewrite Hs, !has_append. tauto.
Qed.

(** Every piece of [split] is a substring of the string. *)
Lemma split_piece sep s tok :
  tok ∈ Js.split sep s → ∃ pre post, s = pre +:+ tok +:+ post.
Proof.
  revert tok. induction s as [|c s IH]; simpl; intros tok Hin.
  - apply list_elem_of_singleton in Hin as ->. by exists EmptyString, EmptyString.
  - case_bool_decide as Hc.
    + apply elem_of_cons in Hin as [->|Hin].
      * by exists EmptyString, (String c s).
      * destruct (IH _ Hin) as (pre & post & ->). by exists (String c pre), post.
    + destruct (Js.split sep s) as [|y ys] eqn:E.
      * apply list_elem_of_singleton in Hin as ->.
        destruct (split_nonempty sep s E).
      * apply elem_of_cons in Hin as [->|Hin].
        -- destruct (IH y) as (pre & post & Hs); [left|].
           destruct pre as [|d pre].
           ++ rewrite append_empty_l in Hs. subst s. by exists EmptyString, post.
           ++ assert (Hsplit : ∃ post', s = y +:+ post').
              { clear -E. revert y ys E. induction s as [|c s IH]; intros y ys E.
                - injection E as <- <-. by exists EmptyString.
                - simpl in E. case_bool_decide.
                  + injection E as <- <-. by exists (String c s).
                  + destruct (Js.split sep s) as [|z zs] eqn:E'.
                    * injection E as <- <-. destruct (split_nonempty sep s E').
                    * injection E as <- <-. destruct (IH z zs eq_refl) as [post' ->].
                      by exists post'. }
              destruct Hsplit as [post' ->]. by exists EmptyString, post'.
        -- destruct (IH tok) as (pre & post & ->); [by right|].
           by exists (String c pre), post.
Qed.

Lemma trim_substring s : ∃ pre post, s = pre +:+ Js.trim s +:+ post.
Proof. destruct (trim_spec s) as (pre & post & Hs & _). by exists pre, post. Qed.

Lemma toLowerCase_empty s : Js.toLowerCase s = EmptyString ↔ s = EmptyString.
Proof. destruct s; simpl; split; congruence. Qed.

(** ** Tags and the tag filter *)

Lemma elem_of_cardTags p x :
  x ∈ cardTags p ↔
  ∃ text tech, technologies p = Some text ∧ tech ∈ Js.split ","%char text ∧
               Js.trim tech = x.
Proof.
  unfold cardTags. destruct (technologies p) as [text|].
  - rewrite list_elem_of_fmap. naive_solver.
  - rewrite elem_of_nil. naive_solver.
Qed.

Lemma cardTag_hasTag p x : x ∈ cardTags p → hasTag x p.
Proof.
  intros (text & tech & Hp & Htech & Hx)%elem_of_cardTags.
  destruct (split_piece _ _ _ Htech) as (pre & post & ->).
  destruct (trim_substring tech) as (pre' & post' & Ht). rewrite Hx in Ht.
  exists (pre +:+ tech +:+ post). split; [done|].
  exists (pre +:+ pre'), x, (post' +:+ post). split; [|done].
  rewrite Ht at 1. by rewrite !append_assoc.
Qed.

Lemma elem_of_filteredProjects ps tag p :
  tag ≠ EmptyString →
  p ∈ filteredProjects ps (Some tag) ↔ p ∈ ps ∧ hasTag tag p.
Proof.
  intros Hne%truthy_true. unfold filteredProjects. rewrite Hne. cbn [negb].
  rewrite !list_elem_of_In, filter_In, matchesTag_spec. done.
Qed.

Lemma bar_tag_filter_nonempty ps T :
  T ∈ allTags ps → filteredProjects ps (Some T) ≠ [].
Proof.
  intros (Hne & p & text & tech & Hp & Htext & Htech & HT)%elem_of_allTags Hnil.
  assert (Hin : p ∈ filteredProjects ps (Some T)).
  { apply elem_of_filteredProjects; [done|]. split; [done|].
    apply cardTag_hasTag, elem_of_cardTags. by exists text, tech. }
  rewrite Hnil in Hin. by apply elem_of_nil in Hin.
Qed.

(** X1. A tag of the tag bar selects every project whose card shows that
    tag, so the list it filters to is never empty. *)
Theorem bar_tag_selects_its_projects (ps : list Project) (T : string) :
  T ∈ allTags ps →
  (∀ p, p ∈ ps → T ∈ cardTags p → p ∈ filteredProjects ps (Some T)) ∧
  filteredProjects ps (Some T) ≠ [].
Proof.
  intros HT. split; [|by apply bar_tag_filter_nonempty].
  intros q Hq Hcard. apply elem_of_filteredProjects.
  - by apply elem_of_allTags in HT as [? _].
  - split; [done|]. by apply cardTag_hasTag.
Qed.

Lemma bar_tag_selects_its_projects_witness :
  let p := ofRow {["technologies"%string := "React, Node"%string]} in
  "Node"%string ∈ allTags [p] ∧ filteredProjects [p] (Some "Node"%string) ≠ [].
Proof.
  intros p.
  assert (Hin : "Node"%string ∈ allTags [p]).
  { apply list_elem_of_In. vm_compute. tauto. }
  split; [exact Hin|].
  destruct (bar_tag_selects_its_projects [p] "Node" Hin) as [_ H]. exact H.
Defined.

(** X2. Every tag of the tag bar is non-empty, contains no comma and
    neither starts nor ends with white space. *)
Theorem bar_tags_are_clean (ps : list Project) (x : string) :
  x ∈ allTags ps →
  x ≠ EmptyString ∧ ¬ has ","%char x ∧
  solid (firstUnit x) ∧ solid (lastUnit x).
Proof.
  intros (Hne & p & text & tech & Hp & Htext & Htech & <-)%elem_of_allTags.
  split; [done|]. split.
  - intros H%has_trim. by apply (split_no_sep _ _ _ Htech).
  - destruct (trim_spec tech) as (pre & post & _ & _ & _ & Hf & Hl). done.
Qed.

Lemma bar_tags_are_clean_witness :
  let p := ofRow {["technologies"%string := " React ,, Node"%string]} in
  "React"%string ∈ allTags [p] ∧ ¬ has ","%char "React".
Proof.
  intros p.
  assert (Hin : "React"%string ∈ allTags [p]).
  { apply list_elem_of_In. vm_compute. tauto. }
  split; [exact Hin|].
  destruct (bar_tags_are_clean [p] "React" Hin) as (_ & H & _). exact H.
Defined.

Lemma filter_sublist {X} (f : X → bool) (l : list X) : List.filter f l `sublist_of` l.
Proof.
  induction l as [|x l IH]; simpl; [done|].
  destruct (f x); [by apply sublist_skip|by apply sublist_cons].
Qed.

Lemma filter_idem {X} (f : X → bool) (l : list X) :
  List.filter f (List.filter f l) = List.filter f l.
Proof.
  induction l as [|x l IH]; simpl; [done|].
  destruct (f x) eqn:Hx; simpl; [by rewrite Hx, IH|done].
Qed.

(** X3. Whatever the active tag, the displayed list is the loaded list with
    some projects left out, in the same order, and filtering the displayed
    list again by the same tag changes nothing. *)
Theorem filteredProjects_sublist_idempotent (ps : list Project)
    (activeTag : option string) :
  filteredProjects ps activeTag `sublist_of` ps ∧
  filteredProjects (filteredProjects ps activeTag) activeTag
  = filteredProjects ps activeTag.
Proof.
  unfold filteredProjects. destruct activeTag as [tag|]; [|done].
  destruct (Js.truthy tag); cbn [negb]; [|done].
  split; [apply filter_sublist|apply filter_idem].
Qed.

(** X4. Two tags that differ only in the case of their letters select the
    same projects. *)
Theorem filteredProjects_ignores_case (ps : list Project) (T U : string) :
  sameIgnoringCase T U →
  filteredProjects ps (Some T) = filteredProjects ps (Some U).
Proof.
  unfold sameIgnoringCase, filteredProjects. intros H.
  assert (Js.truthy T = Js.truthy U) as ->.
  { destruct T, U; simpl in *; congruence. }
  by rewrite H.
Qed.

Lemma filteredProjects_ignores_case_witness :
  let ps := [ofRow {["technologies"%string := "PHP, MySQL"%string]}] in
  sameIgnoringCase "MYSQL" "mysql" ∧
  filteredProjects ps (Some "MYSQL"%string) = filteredProjects ps (Some "mysql"%string).
Proof.
  intros ps. assert (H : sameIgnoringCase "MYSQL" "mysql") by reflexivity.
  split; [exact H|]. exact (filteredProjects_ignores_case ps "MYSQL" "mysql" H).
Defined.

Lemma isTag_app ps1 ps2 x : isTag (ps1 ++ ps2) x ↔ isTag ps1 x ∨ isTag ps2 x.
Proof. unfold isTag. setoid_rewrite elem_of_app. naive_solver. Qed.

Lemma isTag_mono ps ps' x : ps' ⊆ ps → isTag ps' x → isTag ps x.
Proof.
  intros Hsub (Hne & p & text & tech & Hp & H). split; [done|].
  exists p, text, tech. split; [by apply Hsub|done].
Qed.

(** X5. The tag bar of two lists put together holds the tags of either,
    and leaving projects out of a list (a delete) can only remove tags. *)
Theorem allTags_union_monotone (ps1 ps2 : list Project) :
  (∀ x, x ∈ allTags (ps1 ++ ps2) ↔ x ∈ allTags ps1 ∨ x ∈ allTags ps2) ∧
  (∀ ps', ps' ⊆ ps1 → allTags ps' ⊆ allTags ps1).
Proof.
  split.
  - intros x. by rewrite !elem_of_allTags, isTag_app.
  - intros ps' Hsub x. rewrite !elem_of_allTags. by apply isTag_mono.
Qed.

(** ** Identity *)

(** X6. With a service handle, the identity hook resolves a non-empty
    identity, the stored one if there is one, else the fresh UUID; it writes
    that identity to local storage under its key and touches no other key;
    and every later mount on that storage, whatever UUID it draws, resolves
    the same identity and leaves the storage as it is. *)
Theorem identity_persists (client client' : Client) (owner owner' : option string)
    (uuid uuid' : string) (storage : gmap string string) (a0 a1 : Auth) :
  Js.truthy uuid = true →
  let first := authEffect (Some client) owner uuid storage a0 in
  let again := authEffect (Some client') owner' uuid' first.1.2 a1 in
  Js.truthy_opt (userId first.1.1) = true ∧
  first.1.2 !! STORAGE_KEY = userId first.1.1 ∧
  (∀ k, k ≠ STORAGE_KEY → first.1.2 !! k = storage !! k) ∧
  (∀ s, storage !! STORAGE_KEY = Some s → Js.truthy s = true →
        userId first.1.1 = Some s ∧ first.1.2 = storage) ∧
  (Js.truthy_opt (storage !! STORAGE_KEY) = false →
        userId first.1.1 = Some uuid) ∧
  userId again.1.1 = userId first.1.1 ∧
  again.1.2 = first.1.2.
Proof.
  intros Huuid. cbn zeta. unfold authEffect. cbn [fst snd userId].
  set (generatedId := default uuid (Js.or_else (storage !! STORAGE_KEY) None)).
  assert (Hgen : Js.truthy generatedId = true).
  { unfold generatedId, Js.or_else.
    destruct (storage !! STORAGE_KEY) as [s|] eqn:Hs; simpl; [|done].
    destruct (Js.truthy s) eqn:Ht; simpl; done. }
  assert (Hor : Js.or_else (Some generatedId) None = Some generatedId).
  { unfold Js.or_else. simpl. by rewrite Hgen. }
  rewrite lookup_insert_eq, !Hor. cbn [default]. rewrite insert_insert_eq.
  simpl. rewrite Hgen.
  split; [done|]. split; [done|]. split; [intros k Hk; by rewrite lookup_insert_ne|].
  split; [|split; [|done]].
  - intros s Hs Ht. unfold generatedId, Js.or_else. rewrite Hs. simpl. rewrite Ht.
    simpl. split; [done|]. by apply insert_id.
  - intros Hno. unfold generatedId, Js.or_else. by rewrite Hno.
Qed.

Lemma identity_persists_witness :
  let first := authEffect (Some granting) None "uuid-1" ∅ initialAuth in
  let again := authEffect (Some granting) None "uuid-2" first.1.2 initialAuth in
  Js.truthy "uuid-1" = true ∧
  userId first.1.1 = Some "uuid-1"%string ∧
  userId again.1.1 = Some "uuid-1"%string.
Proof.
  intros first again. split; [reflexivity|].
  destruct (identity_persists granting granting None None "uuid-1" "uuid-2" ∅
              initialAuth initialAuth eq_refl)
    as (_ & _ & _ & _ & Hfresh & Hagain & _).
  assert (H1 : userId first.1.1 = Some "uuid-1"%string) by (apply Hfresh; reflexivity).
  split; [exact H1|]. fold first again in Hagain. by rewrite Hagain.
Defined.

(** X7. Without the URL or the key of the data service there is no handle:
    the identity hook reports ready with no identity and no owner, leaves
    local storage alone and logs the configuration error; the repository
    effect opens no channel and keeps [loading] true, so the projects
    section shows only "Loading projects..."; and the mode toggle is
    refused. *)
Theorem without_configuration (cfg : Config)
    (createClient : string → string → Client) (uuid : string)
    (storage : gmap string string) (r : Repo) (u : Ui) :
  Js.truthy_opt (VITE_SUPABASE_URL cfg) = false ∨
  Js.truthy_opt (VITE_SUPABASE_ANON_KEY cfg) = false →
  let sb := supabase cfg createClient in
  let mount := authEffect sb (VERCEL_OWNER_ID cfg) uuid storage initialAuth in
  let a := mount.1.1 in
  let r' := (projectsEffect sb a r).1 in
  sb = None ∧
  isAuthReady a = true ∧ userId a = None ∧ canManage a = false ∧
  mount.1.2 = storage ∧ length mount.2 = 1 ∧
  (projectsEffect sb a r).2 = None ∧ loading r' = true ∧ sent r' = sent r ∧
  projectsSection a r' u
  = {| showsLoading := true; shownError := None; showsTagFilter := false;
       emptyMessage := None;
       cards := filteredProjects (projects r) (activeTag u) |} ∧
  isManagerMode (handleToggleManager a u) = isManagerMode u.
Proof.
  intros Hcfg%(supabase_unset _ createClient). cbn zeta. rewrite Hcfg.
  by cbn.
Qed.

Lemma without_configuration_witness :
  let cfg := {| VITE_APP_OWNER_ID := Some "abc123"%string;
                VITE_SUPABASE_URL := None;
                VITE_SUPABASE_ANON_KEY := Some "key"%string |} in
  let a := (authEffect (supabase cfg (fun _ _ => granting)) (VERCEL_OWNER_ID cfg)
              "uuid-1" {[STORAGE_KEY := "abc123"%string]} initialAuth).1.1 in
  (Js.truthy_opt (VITE_SUPABASE_URL cfg) = false ∨
   Js.truthy_opt (VITE_SUPABASE_ANON_KEY cfg) = false) ∧
  userId a = None ∧ canManage a = false.
Proof.
  intros cfg a.
  assert (H : Js.truthy_opt (VITE_SUPABASE_URL cfg) = false ∨
              Js.truthy_opt (VITE_SUPABASE_ANON_KEY cfg) = false) by (left; reflexivity).
  split; [exact H|].
  destruct (without_configuration cfg (fun _ _ => granting) "uuid-1"
              {[STORAGE_KEY := "abc123"%string]} initialRepo initialUi H)
    as (_ & _ & Hid & Hcan & _).
  split; [exact Hid|exact Hcan].
Defined.

(** X8. When no owner token is configured (unset or empty), the identity
    hook never makes the viewer an owner, whatever identity it resolves, so
    nobody can manage; with a handle it logs the resolved identity so that
    it can be copied into the configuration. *)
Theorem without_owner_token (cfg : Config) (sb : option Client) (uuid : string)
    (storage : gmap string string) :
  Js.truthy_opt (VITE_APP_OWNER_ID cfg) = false →
  let mount := authEffect sb (VERCEL_OWNER_ID cfg) uuid storage initialAuth in
  isAppOwner mount.1.1 = false ∧ canManage mount.1.1 = false ∧
  (∀ client identity, sb = Some client → userId mount.1.1 = Some identity →
     mount.2 = [("SIMULATED USER ID (COPY ME): " +:+ identity)%string]).
Proof.
  intros Hno. cbn zeta. unfold VERCEL_OWNER_ID, Js.or_else. rewrite Hno.
  unfold authEffect, canManage. destruct sb as [client|]; cbn.
  - split; [done|]. split; [done|]. by intros ? ? _ [= <-].
  - split; [done|]. split; [done|]. by intros ? ? [=].
Qed.

Lemma without_owner_token_witness :
  let cfg := {| VITE_APP_OWNER_ID := Some EmptyString;
                VITE_SUPABASE_URL := Some "url"%string;
                VITE_SUPABASE_ANON_KEY := Some "key"%string |} in
  Js.truthy_opt (VITE_APP_OWNER_ID cfg) = false ∧
  canManage (authEffect (Some granting) (VERCEL_OWNER_ID cfg) "uuid-1" ∅
               initialAuth).1.1 = false.
Proof.
  intros cfg. split; [reflexivity|].
  destruct (without_owner_token cfg (Some granting) "uuid-1" ∅ eq_refl)
    as (_ & H & _). exact H.
Defined.

(** ** Project repository client *)

Lemma onChannel_sent channel ev r :
  sent (onChannel channel ev r)
  = sent r ++ (if triggers ev then [fetchRequest channel.2] else []).
Proof.
  destruct ev as [status|]; cbn [onChannel triggers]; [case_bool_decide|];
    by rewrite ?sent_fetchProjects, ?app_nil_r.
Qed.

Lemma onChannel_idle channel ev r : triggers ev = false → onChannel channel ev r = r.
Proof. destruct ev as [status|]; cbn [onChannel triggers]; [|done]. by intros ->. Qed.

Lemma fetchProjects_result client uid r :
  let r' := fetchProjects client uid r in
  loading r' = false ∧
  match awaited (client (fetchRequest uid)) with
  | Some (Some data) => projects r' = ofRow <$> data ∧ error r' = None
  | _ => projects r' = projects r ∧ error r' = Some LOAD_FAILED
  end.
Proof.
  cbn zeta. unfold fetchProjects.
  by destruct (awaited (client (fetchRequest uid))) as [[data|]|].
Qed.

(** X10. Over any sequence of channel reports the hook sends one request
    per report that is "SUBSCRIBED" or a table change, and nothing else;
    each of them is the same select on the owner's rows, newest first.
    Reports with another status change nothing.  After a report that made
    it query, [loading] is off. *)
Theorem channel_sends_only_owner_query (client : Client) (uid : string)
    (evs : list ChannelEvent) (r : Repo) :
  let r' := onChannelAll (client, uid) evs r in
  sent r' = sent r ++ replicate (length (List.filter triggers evs)) (fetchRequest uid) ∧
  ownerFiltered uid (fetchRequest uid) ∧
  Supabase.ordering (fetchRequest uid) = Some ("created_at"%string, false) ∧
  (List.filter triggers evs = [] → r' = r) ∧
  (List.filter triggers evs ≠ [] → loading r' = false).
Proof.
  cbn zeta. split; [|split; [|split; [done|split]]].
  - revert r. induction evs as [|ev evs IH]; intros r; cbn [onChannelAll foldl].
    + by rewrite app_nil_r.
    + unfold onChannelAll in IH. rewrite IH, onChannel_sent. cbn [List.filter snd].
      destruct (triggers ev); cbn [length replicate]; [|by rewrite app_nil_r].
      by rewrite <- app_assoc.
  - unfold ownerFiltered. simpl. set_solver.
  - revert r. induction evs as [|ev evs IH]; intros r Hnone; [done|].
    cbn [List.filter] in Hnone. destruct (triggers ev) eqn:Hev; [done|].
    cbn [onChannelAll foldl]. rewrite onChannel_idle by done. by apply IH.
  - revert r. induction evs as [|ev evs IH] using rev_ind; intros r Hsome; [done|].
    unfold onChannelAll. rewrite foldl_app. cbn [foldl].
    rewrite List.filter_app in Hsome. cbn [List.filter] in Hsome.
    destruct (triggers ev) eqn:Hev.
    + destruct ev as [status|]; cbn [onChannel triggers fst snd] in *; rewrite ?Hev;
        apply fetchProjects_result.
    + rewrite onChannel_idle by done. apply IH. by rewrite app_nil_r in Hsome.
Qed.

Lemma projects_loading_setError e r :
  projects (setError e r) = projects r ∧ loading (setError e r) = loading r.
Proof. done. Qed.

Lemma loading_settle resp l m r : loading (settle resp l m r) = loading r.
Proof. unfold settle. by destruct (awaited resp). Qed.

Lemma console_settle_failed resp l m r :
  ¬ succeeded resp → console (settle resp l m r) = console r ++ [l].
Proof.
  intros Hno. unfold settle. destruct (awaited resp) eqn:E; [|done].
  destruct Hno. by eexists.
Qed.

(** What create, update and delete share. *)
Lemma mutation_shape (sb : option Client) (uid : option string)
    (q : string → Supabase.Request) (l m : string) (r : Repo) :
  let r' := match sb, uid with
            | Some client, Some u =>
                if Js.truthy u then settle (client (q u)) l m (send (q u) r)
                else setError (Some NOT_READY) r
            | _, _ => setError (Some NOT_READY) r
            end in
  projects r' = projects r ∧ loading r' = loading r ∧
  (sent r' = sent r ∨ ∃ q', sent r' = sent r ++ [q']) ∧
  (error r' = None → ∃ q', sent r' = sent r ++ [q']).
Proof.
  cbn zeta. destruct sb as [client|], uid as [u|]; try (by repeat split; auto).
  destruct (Js.truthy u); [|by repeat split; auto].
  rewrite projects_settle, loading_settle, sent_settle. repeat split; eauto.
Qed.

(** X11. Create, update and delete never touch the in-memory list or the
    loading flag, whether they are refused, fail or succeed: the list
    changes only when the list query runs.  Each sends at most one request,
    and the error state is cleared only when a request was sent. *)
Theorem mutations_leave_list_alone (sb : option Client) (uid : option string)
    (r : Repo) (newProject changes : Row) (id : string) :
  ∀ r', r' ∈ [addProject sb uid newProject r;
              updateProject sb uid id changes r;
              deleteProject sb uid id r] →
    projects r' = projects r ∧ loading r' = loading r ∧
    (sent r' = sent r ∨ ∃ q, sent r' = sent r ++ [q]) ∧
    (error r' = None → sent r' ≠ sent r).
Proof.
  intros r' Hr'.
  assert (∃ q l m, r' = match sb, uid with
            | Some client, Some u =>
                if Js.truthy u then settle (client (q u)) l m (send (q u) r)
                else setError (Some NOT_READY) r
            | _, _ => setError (Some NOT_READY) r
            end) as (q & l & m & ->).
  { apply elem_of_cons in Hr' as [->|Hr'].
    { by eexists (fun u => insertRequest u newProject), _, _. }
    apply elem_of_cons in Hr' as [->|Hr'].
    { by eexists (fun _ => updateRequest id changes), _, _. }
    apply list_elem_of_singleton in Hr' as ->.
    by eexists (fun _ => deleteRequest id), _, _. }
  destruct (mutation_shape sb uid q l m r) as (Hp & Hl & Hs & He).
  split; [done|]. split; [done|]. split; [done|].
  intros Hnone. destruct (He Hnone) as [q' ->]. intros Heq.
  apply (f_equal length) in Heq. rewrite length_app in Heq. simpl in Heq. lia.
Qed.

(** X12. With handle and identity in place, a create, update or delete
    whose request is refused or rejected stores its own fixed message in
    the error state, writes one line to the console, and has sent that one
    request only: no retry. *)
Theorem mutation_failure (client : Client) (uid : string) (r : Repo)
    (newProject changes : Row) (id : string) :
  Js.truthy uid = true →
  (¬ succeeded (client (insertRequest uid newProject)) →
   let r' := addProject (Some client) (Some uid) newProject r in
   error r' = Some "Failed to add project. Ensure table and RLS policies are correct."%string ∧
   console r' = console r ++ ["Error adding project to Supabase:"%string] ∧
   sent r' = sent r ++ [insertRequest uid newProject]) ∧
  (¬ succeeded (client (updateRequest id changes)) →
   let r' := updateProject (Some client) (Some uid) id changes r in
   error r' = Some "Failed to save changes. Check RLS policies."%string ∧
   console r' = console r ++ ["Error updating project in Supabase:"%string] ∧
   sent r' = sent r ++ [updateRequest id changes]) ∧
  (¬ succeeded (client (deleteRequest id)) →
   let r' := deleteProject (Some client) (Some uid) id r in
   error r' = Some "Failed to delete project. Check RLS policies."%string ∧
   console r' = console r ++ ["Error deleting project from Supabase:"%string] ∧
   sent r' = sent r ++ [deleteRequest id]).
Proof.
  intros Huid. unfold addProject, updateProject, deleteProject. rewrite Huid.
  repeat split;
    by rewrite ?error_settle_failed, ?console_settle_failed, ?sent_settle.
Qed.

Lemma mutation_failure_witness :
  let r' := deleteProject (Some refusing) (Some "owner-1"%string) "7" initialRepo in
  Js.truthy "owner-1" = true ∧
  error r' = Some "Failed to delete project. Check RLS policies."%string ∧
  sent r' = [deleteRequest "7"].
Proof.
  intros r'. split; [reflexivity|].
  destruct (mutation_failure refusing "owner-1" initialRepo ∅ ∅ "7" eq_refl)
    as (_ & _ & Hd).
  destruct Hd as (He & _ & Hs); [by intros [x [=]]|].
  split; [exact He|exact Hs].
Defined.

(** ** Project form *)

Lemma lookup_data (f : ProjectForm.State) :
  ProjectForm.data f !! "title"%string = Some (ProjectForm.title f) ∧
  ProjectForm.data f !! "description"%string = Some (ProjectForm.description f) ∧
  ProjectForm.data f !! "technologies"%string = Some (ProjectForm.technologies f) ∧
  ProjectForm.data f !! "githubUrl"%string = Some (ProjectForm.githubUrl f) ∧
  ProjectForm.data f !! "liveDemoUrl"%string = Some (ProjectForm.liveDemoUrl f) ∧
  (∀ k, k ∉ FORM_KEYS → ProjectForm.data f !! k = None).
Proof.
  unfold ProjectForm.data, projectData. repeat split; try by simplify_map_eq.
  intros k Hk. unfold FORM_KEYS in Hk.
  rewrite !lookup_insert_ne, lookup_empty; set_solver.
Qed.

Lemma reset_is_blank f :
  ProjectForm.resetForm (ProjectForm.setSubmissionError None f) = ProjectForm.load None.
Proof. done. Qed.

(** X13. A submit with an empty title, description or technologies, or by
    a viewer who is not the owner, reaches neither create nor update:
    nothing outside the form changes, the form keeps its fields and shows
    the matching message (the required-fields message first). *)
Theorem submit_stopped_by_validation (isAppOwner : bool)
    (currentProject : option Project) (sb : option Client)
    (userId : option string) (addProject : nat) (f : ProjectForm.State)
    (w : Seeding.State) :
  let incomplete := negb (Js.truthy (ProjectForm.title f))
                    || negb (Js.truthy (ProjectForm.description f))
                    || negb (Js.truthy (ProjectForm.technologies f)) in
  incomplete = true ∨ isAppOwner = false →
  ProjectForm.handleSubmit isAppOwner currentProject sb userId addProject f w
  = (ProjectForm.setSubmissionError
       (Some (if incomplete then ProjectForm.REQUIRED else ProjectForm.NOT_OWNER)) f,
     currentProject, w).
Proof.
  cbn zeta. unfold ProjectForm.handleSubmit. cbn.
  destruct (negb _ || negb _ || negb _); [done|].
  intros [?| ->]; done.
Qed.

Lemma submit_stopped_by_validation_witness :
  let f := {| ProjectForm.id := EmptyString; ProjectForm.title := "Shop";
              ProjectForm.description := EmptyString;
              ProjectForm.technologies := "PHP";
              ProjectForm.githubUrl := EmptyString;
              ProjectForm.liveDemoUrl := EmptyString;
              ProjectForm.submissionError := None |} in
  let w := (EventLoop.start,
            {| Seeding.closures := [None]; Seeding.repo := initialRepo |}) in
  (ProjectForm.handleSubmit true None (Some granting) (Some "owner-1"%string) 0 f w).2
  = w.
Proof.
  intros f w.
  rewrite (submit_stopped_by_validation true None (Some granting)
             (Some "owner-1"%string) 0 f w); [reflexivity|].
  left. reflexivity.
Defined.

(** X14. The owner's submit while editing a project (the form holds its
    id) sends at once one update filtered by that id, whose changes are
    exactly the five form fields, never [id] or [owner_id]; it sets no
    timer; and whatever the service answers, the form is emptied and the
    edit closed, the answer showing only in the repository's error. *)
Theorem submit_edit_sends_update (client : Client) (uid : string) (p : Project)
    (addProject : nat) (f : ProjectForm.State) (w : Seeding.State) :
  Js.truthy uid = true → complete f → Js.truthy (ProjectForm.id f) = true →
  let res := ProjectForm.handleSubmit true (Some p) (Some client) (Some uid)
               addProject f w in
  let q := updateRequest (ProjectForm.id f) (ProjectForm.data f) in
  res.1.1 = ProjectForm.load None ∧ res.1.2 = None ∧
  res.2.1 = w.1 ∧ Seeding.closures res.2.2 = Seeding.closures w.2 ∧
  sent (Seeding.repo res.2.2) = sent (Seeding.repo w.2) ++ [q] ∧
  Supabase.verb q = Supabase.Update (ProjectForm.data f) ∧
  Supabase.filters q = [("id"%string, ProjectForm.id f)] ∧
  dom (ProjectForm.data f) = list_to_set FORM_KEYS ∧
  projects (Seeding.repo res.2.2) = projects (Seeding.repo w.2) ∧
  (succeeded (client q) → error (Seeding.repo res.2.2) = None) ∧
  (¬ succeeded (client q) →
   error (Seeding.repo res.2.2) = Some "Failed to save changes. Check RLS policies."%string).
Proof.
  intros Huid (Ht & Hd & Hk) Hid. cbn zeta. unfold ProjectForm.handleSubmit.
  cbn [ProjectForm.title ProjectForm.description ProjectForm.technologies
       ProjectForm.id ProjectForm.setSubmissionError].
  rewrite Ht, Hd, Hk, Hid.
  rewrite (bool_decide_eq_true_2 (is_Some (Some p))) by eauto.
  cbn [negb orb andb fst snd Seeding.repo Seeding.closures].
  unfold updateProject. rewrite Huid.
  rewrite sent_settle, projects_settle.
  assert (Hdel : base.delete "id"%string (ProjectForm.data f) = ProjectForm.data f).
  { apply delete_id. apply lookup_data. unfold FORM_KEYS. set_solver. }
  assert (Hdom : dom (ProjectForm.data f) = list_to_set FORM_KEYS).
  { unfold ProjectForm.data, projectData, FORM_KEYS. rewrite !dom_insert_L.
    set_solver. }
  change (ProjectForm.data (ProjectForm.setSubmissionError None f))
    with (ProjectForm.data f).
  split; [done|]. split; [done|]. split; [done|]. split; [done|].
  split; [done|]. split; [unfold updateRequest; cbn zeta; by rewrite Hdel|].
  split; [done|]. split; [exact Hdom|]. split; [done|].
  split; [apply error_settle_ok|apply error_settle_failed].
Qed.

Lemma submit_edit_sends_update_witness :
  let f := {| ProjectForm.id := "7"; ProjectForm.title := "Shop";
              ProjectForm.description := "A shop.";
              ProjectForm.technologies := "PHP";
              ProjectForm.githubUrl := EmptyString;
              ProjectForm.liveDemoUrl := EmptyString;
              ProjectForm.submissionError := None |} in
  let w := (EventLoop.start,
            {| Seeding.closures := [None]; Seeding.repo := initialRepo |}) in
  let res := ProjectForm.handleSubmit true (Some (ofRow ∅)) (Some refusing)
               (Some "owner-1"%string) 0 f w in
  Js.truthy "owner-1" = true ∧ complete f ∧ Js.truthy (ProjectForm.id f) = true ∧
  res.1.1 = ProjectForm.load None ∧
  sent (Seeding.repo res.2.2) = [updateRequest "7" (ProjectForm.data f)].
Proof.
  intros f w res.
  assert (Hc : complete f) by (repeat split; reflexivity).
  split; [reflexivity|]. split; [exact Hc|]. split; [reflexivity|].
  destruct (submit_edit_sends_update refusing "owner-1" (ofRow ∅) 0 f w
              eq_refl Hc eq_refl) as (H1 & _ & _ & _ & H2 & _).
  split; [exact H1|exact H2].
Defined.
(** X15. The owner's submit of a new project (no project being edited, or
    one without an id) sends nothing at once: it empties the form and hands
    the data to the debounced create, which, with no other timer pending,
    sends one insert of the five fields and the owner's id once 300 ms have
    passed, and nothing before. *)
Theorem submit_new_is_debounced (client : Client) (uid : string)
    (currentProject : option Project) (addProject : nat)
    (f : ProjectForm.State) (w : Seeding.State) (fuel t : nat) :
  Js.truthy uid = true → complete f →
  currentProject = None ∨ Js.truthy (ProjectForm.id f) = false →
  EventLoop.timers w.1 = [] → 1 ≤ fuel →
  let res := ProjectForm.handleSubmit true currentProject (Some client) (Some uid)
               addProject f w in
  let later := EventLoop.runUntil fuel t
                 (Seeding.handler (Some client) (Some uid)) res.2 in
  res.1.1 = ProjectForm.load None ∧ res.1.2 = None ∧
  Seeding.repo res.2.2 = Seeding.repo w.2 ∧
  (t < EventLoop.now w.1 + ADD_DEBOUNCE_MS → Seeding.repo later.2 = Seeding.repo w.2) ∧
  (EventLoop.now w.1 + ADD_DEBOUNCE_MS ≤ t →
   sent (Seeding.repo later.2)
   = sent (Seeding.repo w.2) ++ [insertRequest uid (ProjectForm.data f)] ∧
   EventLoop.timers later.1 = []).
Proof.
  intros Huid (Ht & Hd & Hk) Hnew Hquiet Hfuel. cbn zeta.
  unfold ProjectForm.handleSubmit.
  cbn [ProjectForm.title ProjectForm.description ProjectForm.technologies
       ProjectForm.id ProjectForm.setSubmissionError].
  rewrite Ht, Hd, Hk. cbn [negb orb].
  assert (bool_decide (is_Some currentProject) && Js.truthy (ProjectForm.id f) = false)
    as ->.
  { destruct Hnew as [-> | ->]; [|by rewrite andb_false_r].
    rewrite bool_decide_eq_false_2; [done|]. by intros [? [=]]. }
  change (ProjectForm.data (ProjectForm.setSubmissionError None f))
    with (ProjectForm.data f).
  destruct w as [[now nid tms] [cl rp]]. cbn [fst snd EventLoop.timers] in Hquiet.
  subst tms. destruct fuel as [|fuel]; [lia|].
  unfold Seeding.callAddProject, debounce, ADD_DEBOUNCE_MS.
  cbn [fst snd Seeding.closures Seeding.repo EventLoop.now].
  assert (Hclear : ∀ i, EventLoop.clearTimeout i
                          {| EventLoop.now := now; EventLoop.nextId := nid;
                             EventLoop.timers := ([] : list (EventLoop.Timer Seeding.Task)) |}
                        = {| EventLoop.now := now; EventLoop.nextId := nid;
                             EventLoop.timers := [] |}) by (by intros [i|]).
  rewrite Hclear. cbn [EventLoop.setTimeout EventLoop.now EventLoop.nextId
                       EventLoop.timers app fst snd Seeding.repo].
  split; [done|]. split; [done|]. split; [done|]. split.
  - intros Hearly. cbn [EventLoop.runUntil EventLoop.timers EventLoop.nextDue
                        EventLoop.due fst snd].
    replace (now + 300 <=? t) with false by (symmetry; apply Nat.leb_gt; lia).
    done.
  - intros Hlate. erewrite runUntil_fire; [|reflexivity|cbn [EventLoop.due]; lia].
    cbn [EventLoop.task Seeding.handler fst snd Seeding.closures Seeding.repo].
    rewrite runUntil_idle.
    + cbn [fst snd Seeding.repo]. rewrite sent_addProject by done.
      split; [done|]. cbn. by rewrite Nat.eqb_refl.
    + cbn. by rewrite Nat.eqb_refl.
Qed.

Lemma submit_new_is_debounced_witness :
  let f := {| ProjectForm.id := EmptyString; ProjectForm.title := "Shop";
              ProjectForm.description := "A shop.";
              ProjectForm.technologies := "PHP";
              ProjectForm.githubUrl := EmptyString;
              ProjectForm.liveDemoUrl := EmptyString;
              ProjectForm.submissionError := None |} in
  let w := (EventLoop.start,
            {| Seeding.closures := [None]; Seeding.repo := initialRepo |}) in
  let res := ProjectForm.handleSubmit true None (Some granting)
               (Some "owner-1"%string) 0 f w in
  Js.truthy "owner-1" = true ∧ complete f ∧
  sent (Seeding.repo res.2.2) = [] ∧
  sent (Seeding.repo
          (EventLoop.runUntil 1 300
             (Seeding.handler (Some granting) (Some "owner-1"%string)) res.2).2)
  = [insertRequest "owner-1" (ProjectForm.data f)].
Proof.
  intros f w res.
  assert (Hc : complete f) by (repeat split; reflexivity).
  split; [reflexivity|]. split; [exact Hc|].
  destruct (submit_new_is_debounced granting "owner-1" None 0 f w 1 300
              eq_refl Hc (or_introl eq_refl) eq_refl (le_n 1))
    as (_ & _ & Hnow & _ & Hlater).
  split; [fold res in Hnow; by rewrite Hnow|].
  destruct Hlater as [Hs _]; [unfold ADD_DEBOUNCE_MS; cbn; lia|]. exact Hs.
Defined.

(** ** Description-drafting client *)

(** X16. A drafting call with an empty title or empty technologies stores
    the validation message and does nothing else: no request, no wait, no
    change to the description or the loading flag. *)
Theorem drafting_needs_title_and_technologies (title technologies : string)
    (api : nat → Gemini.FetchResult) (d : Draft) :
  title = EmptyString ∨ technologies = EmptyString →
  generateProjectDescription title technologies api d
  = {| isLoading := isLoading d;
       draftError := Some "Please fill in the Title and Technologies fields first."%string;
       description := description d; fetches := fetches d; sleeps := sleeps d |}.
Proof.
  unfold generateProjectDescription.
  intros [-> | ->]; [done|]. by rewrite orb_true_r.
Qed.

Lemma drafting_needs_title_and_technologies_witness :
  fetches (generateProjectDescription "" "PHP" (fun _ => answer "text") blankDraft) = 0 ∧
  description (generateProjectDescription "" "PHP" (fun _ => answer "text") blankDraft)
  = EmptyString.
Proof.
  rewrite (drafting_needs_title_and_technologies "" "PHP" (fun _ => answer "text")
             blankDraft (or_introl eq_refl)).
  split; reflexivity.
Defined.

(** X17. Whatever the API answers, a drafting call with title and
    technologies ends in exactly one of two ways, loading off in both.
    Either some attempt [n] of at most three yielded a text: the description
    is that text trimmed and no error is shown, even if an error from an
    earlier call was showing.  Or all three failed: the final error shows
    and the description is untouched.  It has waited after every failed
    attempt but the last one, 3000 ms at most in total. *)
Theorem drafting_outcome (title technologies : string)
    (api : nat → Gemini.FetchResult) (d : Draft) :
  Js.truthy title = true → Js.truthy technologies = true →
  let d' := generateProjectDescription title technologies api d in
  ∃ n, 1 ≤ n ≤ MAX_RETRIES ∧ fetches d' = fetches d + n ∧
       sleeps d' = sleeps d ++ take (n - 1) [1000; 2000] ∧
       sum_list (take (n - 1) [1000; 2000]) ≤ 3000 ∧
       isLoading d' = false ∧
       ((∃ text, attemptText (api n) = Some text ∧
                 description d' = Js.trim text ∧ draftError d' = None) ∨
        (n = MAX_RETRIES ∧ (∀ j, 1 ≤ j ≤ MAX_RETRIES → attemptText (api j) = None) ∧
         description d' = description d ∧
         draftError d' = Some "Failed to generate description after multiple attempts."%string)).
Proof.
  intros Ht Hk. unfold generateProjectDescription. rewrite Ht, Hk. cbn zeta.
  unfold MAX_RETRIES, INITIAL_DELAY_MS. simpl.
  destruct (attemptText (api 1)) as [t1|] eqn:E1; simpl;
    [exists 1|destruct (attemptText (api 2)) as [t2|] eqn:E2; simpl;
      [exists 2|destruct (attemptText (api 3)) as [t3|] eqn:E3; simpl; exists 3]].
  all: simpl; rewrite ?app_nil_r, <- ?app_assoc.
  all: split; [lia|]; split; [lia|]; split; [done|]; split; [lia|];
    split; [done|].
  1-3: left; eauto.
  right. split; [done|]. split; [|done].
  intros j Hj. assert (j = 1 ∨ j = 2 ∨ j = 3) as [-> | [-> | ->]] by lia; done.
Qed.

Lemma drafting_outcome_witness :
  let stale := {| isLoading := false;
                  draftError := Some "Failed to generate description after multiple attempts."%string;
                  description := "old"; fetches := 0; sleeps := [] |} in
  let d' := generateProjectDescription "Shop" "PHP" (fun _ => answer " new ") stale in
  Js.truthy "Shop" = true ∧ Js.truthy "PHP" = true ∧
  draftError d' = None ∧ description d' = "new"%string.
Proof.
  intros stale d'. split; [reflexivity|]. split; [reflexivity|].
  destruct (drafting_outcome "Shop" "PHP" (fun _ => answer " new ") stale
              eq_refl eq_refl) as (n & _ & _ & _ & _ & _ & Hout).
  fold d' in Hout. destruct Hout as [(text & Hn & Hd & He)|(_ & Hall & _)].
  - split; [exact He|]. rewrite Hd.
    assert (text = " new "%string) as -> by (cbv in Hn; congruence). reflexivity.
  - specialize (Hall 1 ltac:(unfold MAX_RETRIES; lia)). discriminate Hall.
Defined.

(** ** Debounce utility: any sequence of calls *)

Section DebounceSafetyFacts.
Context {A W : Type} (func : A → W → W) (delay : nat) (w0 : W).

Lemma settled_elapse called s t :
  settled func w0 called s → settled func w0 called (Debounce.elapse func t s).
Proof.
  destruct s as [[now nid tms] tid w].
  intros (ran & Hran & [[Htms Hsub]|(tm & before & Htms & Htid & Hcalled & Hsub)]);
    cbn in Htms; subst tms; unfold Debounce.elapse; cbn.
  - exists ran. split; [done|]. by left.
  - destruct (EventLoop.due tm <=? t); cbn; rewrite ?Nat.eqb_refl; cbn.
    + exists (ran ++ [EventLoop.task tm]). split.
      * unfold hasRun in *. cbn in Hran. by rewrite foldl_app, <- Hran.
      * left. split; [cbn; by rewrite ?Nat.eqb_refl|].
        rewrite Hcalled. by apply sublist_app.
    + exists ran. split; [done|]. right. by exists tm, before.
Qed.

Lemma settled_arrive called s t :
  settled func w0 called s → settled func w0 called (Debounce.arrive func t s).
Proof.
  destruct s as [[now nid tms] tid w].
  intros (ran & Hran & [[Htms Hsub]|(tm & before & Htms & Htid & Hcalled & Hsub)]);
    cbn in Htms; subst tms; unfold Debounce.arrive;
    cbn [Debounce.loop Debounce.timeoutId Debounce.world EventLoop.timers length
         EventLoop.runBefore EventLoop.nextDue fst snd].
  - exists ran. split; [done|]. by left.
  - destruct (EventLoop.due tm <? t); cbn; rewrite ?Nat.eqb_refl; cbn.
    + exists (ran ++ [EventLoop.task tm]). split.
      * unfold hasRun in *. cbn in Hran. by rewrite foldl_app, <- Hran.
      * left. split; [cbn; by rewrite ?Nat.eqb_refl|].
        rewrite Hcalled. by apply sublist_app.
    + exists ran. split; [done|]. right. by exists tm, before.
Qed.

Lemma settled_invoke called s call :
  settled func w0 called s →
  settled func w0 (called ++ [call.2]) (Debounce.invoke func delay s call) ∧
  ∃ tm, EventLoop.timers (Debounce.loop (Debounce.invoke func delay s call)) = [tm] ∧
        EventLoop.task tm = call.2.
Proof.
  intros Hs. apply (settled_arrive _ _ call.1) in Hs.
  unfold Debounce.invoke. destruct (Debounce.arrive func call.1 s) as [[now nid tms] tid w].
  destruct Hs as (ran & Hran & [[Htms Hsub]|(tm & before & Htms & Htid & Hcalled & Hsub)]);
    cbn in Htms, Hran; subst tms.
  - assert (Hclear : EventLoop.timers
                       (EventLoop.clearTimeout tid
                          {| EventLoop.now := now; EventLoop.nextId := nid;
                             EventLoop.timers := ([] : list (EventLoop.Timer A)) |}) = [])
      by (by destruct tid).
    unfold debounce. cbn. rewrite Hclear. cbn. split; [|by eexists].
    exists ran. split; [done|]. right. eexists _, called. cbn. done.
  - cbn in Htid. subst tid. unfold debounce. cbn. rewrite Nat.eqb_refl. cbn.
    split; [|by eexists].
    exists ran. split; [done|]. right. eexists _, called. cbn.
    split; [done|]. split; [done|]. split; [done|].
    rewrite Hcalled. by apply sublist_inserts_r.
Qed.

Lemma settled_invokeAll calls called s :
  settled func w0 called s →
  settled func w0 (called ++ calls.*2) (Debounce.invokeAll func delay calls s).
Proof.
  revert called s. induction calls as [|call calls IH]; intros called s Hs.
  - by rewrite app_nil_r.
  - cbn [fmap list_fmap]. rewrite cons_middle, app_assoc.
    apply IH. by apply settled_invoke.
Qed.

Lemma settled_fresh : settled func w0 [] (Debounce.fresh w0).
Proof. exists []. split; [done|]. by left. Qed.

(** X18. For every action, delay and sequence of calls of the debounced
    function, made at whatever times: at most one timer is ever pending,
    and the action has run only for arguments it was called with, in the
    order of the calls and at most once per call.  Right after a call the
    pending timer is the one of that call, and the action has not run for
    it: a call never runs the action itself. *)
Theorem debounce_is_safe (calls : list (nat * A)) (t : nat) :
  let s := Debounce.invokeAll func delay calls (Debounce.fresh w0) in
  let s' := Debounce.elapse func t s in
  length (EventLoop.timers (Debounce.loop s')) ≤ 1 ∧
  (∃ ran, ran `sublist_of` calls.*2 ∧ hasRun func w0 ran (Debounce.world s')) ∧
  (∀ call, last calls = Some call →
     (∃ tm, EventLoop.timers (Debounce.loop s) = [tm] ∧ EventLoop.task tm = call.2) ∧
     ∃ ran, ran `sublist_of` (removelast calls).*2 ∧ hasRun func w0 ran (Debounce.world s)).
Proof.
  cbn zeta.
  pose proof (settled_invokeAll calls [] _ settled_fresh) as Hs.
  rewrite app_nil_l in Hs.
  pose proof (settled_elapse _ _ t Hs) as Hs'.
  split; [|split].
  - destruct Hs' as (ran & _ & [[-> _]|(tm & before & -> & _)]); simpl; lia.
  - destruct Hs' as (ran & Hran & [[_ Hsub]|(tm & before & _ & _ & -> & Hsub)]);
      exists ran; (split; [|done]); [done|by apply sublist_inserts_r].
  - intros call Hlast. apply last_Some in Hlast as [before ->].
    unfold Debounce.invokeAll. rewrite foldl_app. cbn [foldl].
    pose proof (settled_invokeAll before [] _ settled_fresh) as Hb.
    rewrite app_nil_l in Hb.
    destruct (settled_invoke _ _ call Hb) as [Hinv Htm].
    split; [done|]. rewrite removelast_last.
    destruct Htm as (tm & Htms & Htask).
    destruct Hinv as (ran & Hran & [[Hnil _]|(tm' & bf & Htms' & _ & Hcalled & Hsub)]).
    + unfold Debounce.invokeAll in *. congruence.
    + apply app_inj_tail in Hcalled as [<- _]. by exists ran.
Qed.

End DebounceSafetyFacts.

(** ** Seeding and the debounced create *)

Lemma clearTimeout_fresh {Task} (l : EventLoop.Loop Task) (t : Task) delay :
  wellFormed l →
  EventLoop.timers
    (EventLoop.clearTimeout (Some (EventLoop.setTimeout t delay l).1)
       (EventLoop.setTimeout t delay l).2)
  = EventLoop.timers l.
Proof.
  intros Hwf. cbn. rewrite List.filter_app. cbn. rewrite Nat.eqb_refl. cbn.
  rewrite app_nil_r. unfold wellFormed in Hwf.
  induction Hwf as [|tm tms Htm _ IH]; [done|]. cbn.
  replace (EventLoop.timerId tm =? EventLoop.nextId l) with false
    by (symmetry; apply Nat.eqb_neq; lia).
  cbn. by rewrite IH.
Qed.

(** X19. The seeding effect sets a timer exactly when the viewer is the
    owner, loading is over and the list is empty; it is then one timer for
    the seeding callback, due 1500 ms later, and nothing else changes.  The
    effect's cleanup removes that timer again and leaves the timers that
    were pending before, so a seeding cancelled by a re-render never
    runs. *)
Theorem seedEffect_timer (isAppOwner loading : bool) (addProject : nat)
    (s : Seeding.State) :
  wellFormed s.1 →
  let res := Seeding.seedEffect isAppOwner loading addProject s in
  let seeds := isAppOwner && negb loading
               && bool_decide (projects (Seeding.repo s.2) = []) in
  res.1.2 = s.2 ∧
  EventLoop.now res.1.1 = EventLoop.now s.1 ∧
  EventLoop.timers res.1.1
  = EventLoop.timers s.1 ++
    (if seeds
     then [EventLoop.mkTimer (EventLoop.nextId s.1)
             (EventLoop.now s.1 + SEED_DELAY_MS) (Seeding.Seed addProject)]
     else []) ∧
  (res.2 = None ↔ seeds = false) ∧
  EventLoop.timers (EventLoop.clearTimeout res.2 res.1.1) = EventLoop.timers s.1.
Proof.
  intros Hwf. cbn zeta. unfold Seeding.seedEffect.
  destruct isAppOwner, loading; cbn [negb orb andb];
    try (rewrite app_nil_r; done).
  destruct (projects (Seeding.repo s.2)) as [|p ps] eqn:Hps; cbn [length];
    [|rewrite app_nil_r; done].
  cbn [Nat.ltb Nat.leb Nat.eqb]. rewrite bool_decide_eq_true_2 by done.
  pose proof (clearTimeout_fresh s.1 (Seeding.Seed addProject) SEED_DELAY_MS Hwf).
  by cbn in *.
Qed.

Lemma seedEffect_timer_witness :
  let s : Seeding.State :=
    (EventLoop.start, {| Seeding.closures := [None];
                         Seeding.repo := setLoading false initialRepo |}) in
  let res := Seeding.seedEffect true false 0 s in
  wellFormed s.1 ∧ is_Some res.2 ∧
  EventLoop.timers (EventLoop.clearTimeout res.2 res.1.1) = [].
Proof.
  intros s res.
  assert (Hwf : wellFormed s.1) by constructor.
  split; [exact Hwf|].
  destruct (seedEffect_timer true false 0 s Hwf) as (_ & _ & _ & _ & Hclean).
  split; [by eexists|exact Hclean].
Defined.

(** X20. The debounce closure belongs to one render: two creates made
    together through the functions of two different renders do not cancel
    each other, and both inserts are sent 300 ms later, in call order;
    made through the function of one render, only the second is sent. *)
Theorem renders_do_not_share_debounce (client : Client) (uid : string)
    (r : Repo) (p1 p2 : Row) (fuel t : nat) :
  Js.truthy uid = true → 2 ≤ fuel → ADD_DEBOUNCE_MS ≤ t →
  let first := Seeding.render (EventLoop.start,
                               {| Seeding.closures := []; Seeding.repo := r |}) in
  let second := Seeding.render first.2 in
  let wait s := Seeding.repo
                  (EventLoop.runUntil fuel t
                     (Seeding.handler (Some client) (Some uid)) s).2 in
  first.1 ≠ second.1 ∧
  sent (wait (Seeding.callAddProject second.1
                (Seeding.callAddProject first.1 second.2 p1) p2))
  = sent r ++ [insertRequest uid p1; insertRequest uid p2] ∧
  sent (wait (Seeding.callAddProject first.1
                (Seeding.callAddProject first.1 second.2 p1) p2))
  = sent r ++ [insertRequest uid p2].
Proof.
  intros Huid Hfuel Ht. cbn zeta. unfold ADD_DEBOUNCE_MS in Ht.
  destruct fuel as [|[|fuel]]; [lia..|].
  split; [done|]. split.
  - set (s := Seeding.callAddProject _ _ p2).
    assert (Hs : s = ({| EventLoop.now := 0; EventLoop.nextId := 3;
                         EventLoop.timers :=
                           [EventLoop.mkTimer 1 300 (Seeding.Add p1);
                            EventLoop.mkTimer 2 300 (Seeding.Add p2)] |},
                      {| Seeding.closures := [Some 1; Some 2];
                         Seeding.repo := r |})) by reflexivity.
    rewrite Hs. clear s Hs.
    erewrite runUntil_fire; [|reflexivity|cbn [EventLoop.due]; lia].
    set (s := Seeding.handler _ _ _ _).
    assert (Hs : s = ({| EventLoop.now := 300; EventLoop.nextId := 3;
                         EventLoop.timers := [EventLoop.mkTimer 2 300 (Seeding.Add p2)] |},
                      {| Seeding.closures := [Some 1; Some 2];
                         Seeding.repo := addProject (Some client) (Some uid) p1 r |}))
      by reflexivity.
    rewrite Hs. clear s Hs.
    erewrite runUntil_fire; [|reflexivity|cbn [EventLoop.due]; lia].
    rewrite runUntil_idle by reflexivity.
    cbn -[addProject]. rewrite !sent_addProject by done. by rewrite <- app_assoc.
  - set (s := Seeding.callAddProject _ _ p2).
    assert (Hs : s = ({| EventLoop.now := 0; EventLoop.nextId := 3;
                         EventLoop.timers := [EventLoop.mkTimer 2 300 (Seeding.Add p2)] |},
                      {| Seeding.closures := [Some 2; None];
                         Seeding.repo := r |})) by reflexivity.
    rewrite Hs. clear s Hs.
    erewrite runUntil_fire; [|reflexivity|cbn [EventLoop.due]; lia].
    rewrite runUntil_idle by reflexivity.
    cbn -[addProject]. by rewrite sent_addProject.
Qed.

Lemma renders_do_not_share_debounce_witness :
  let first := Seeding.render (EventLoop.start,
                               {| Seeding.closures := []; Seeding.repo := initialRepo |}) in
  let second := Seeding.render first.2 in
  Js.truthy "owner-1" = true ∧
  sent (Seeding.repo
          (EventLoop.runUntil 2 300 (Seeding.handler (Some granting) (Some "owner-1"%string))
             (Seeding.callAddProject second.1
                (Seeding.callAddProject first.1 second.2 movieTicketBooking)
                hangmanApp)).2)
  = [insertRequest "owner-1" movieTicketBooking; insertRequest "owner-1" hangmanApp].
Proof.
  intros first second. split; [reflexivity|].
  destruct (renders_do_not_share_debounce granting "owner-1" initialRepo
              movieTicketBooking hangmanApp 2 300 eq_refl (le_n 2))
    as (_ & H & _); [unfold ADD_DEBOUNCE_MS; lia|].
  exact H.
Defined.

(** ** Links, header, form round trip *)

(** X21. [LinkButton] renders nothing for a missing or empty URL and for
    "#".  Any other URL is rendered, as it is when it starts with "http"
    and prefixed with "https://" otherwise, so the rendered address always
    starts with "http"; passing a rendered address through again leaves it
    as it is. *)
Theorem LinkButton_href (href : option string) :
  match LinkButton href with
  | None => href = None ∨ href = Some EmptyString ∨ href = Some "#"%string
  | Some shown =>
      ∃ h, href = Some h ∧ h ≠ EmptyString ∧ h ≠ "#"%string ∧
           Js.startsWith shown "http" = true ∧
           shown = (if Js.startsWith h "http" then h else ("https://" +:+ h)%string) ∧
           LinkButton (Some shown) = Some shown
  end.
Proof.
  destruct href as [h|]; [|by left]. unfold LinkButton at 1.
  destruct (Js.truthy h) eqn:Hh; cbn [negb orb];
    [|apply truthy_false in Hh; subst h; auto].
  destruct (bool_decide (h = "#"%string)) eqn:Hhash.
  { apply bool_decide_eq_true in Hhash. subst h. auto. }
  apply bool_decide_eq_false in Hhash. pose proof (proj1 (truthy_true h) Hh) as Hne.
  exists h. split; [done|]. split; [done|]. split; [done|].
  destruct (Js.startsWith h "http") eqn:Hs.
  - split; [done|]. split; [done|]. unfold LinkButton.
    rewrite Hh, bool_decide_eq_false_2 by done. cbn [negb orb]. by rewrite Hs.
  - split; [done|]. split; [done|]. done.
Qed.

Lemma split_head sep s y ys :
  Js.split sep s = y :: ys →
  ∃ post, s = y +:+ post ∧
          (ys = [] → post = EmptyString) ∧
          (ys ≠ [] → ∃ rest, post = String sep rest).
Proof.
  revert y ys. induction s as [|c s IH]; intros y ys E.
  - injection E as <- <-. by exists EmptyString.
  - simpl in E. case_bool_decide as Hc.
    + injection E as <- <-. subst c. exists (String sep s).
      split; [done|]. split; [|by eexists].
      intros Hnil. by destruct (split_nonempty sep s).
    + destruct (Js.split sep s) as [|z zs] eqn:E'.
      * destruct (split_nonempty sep s E').
      * injection E as <- <-. destruct (IH z zs eq_refl) as (post & -> & H1 & H2).
        by exists post.
Qed.

(** X22. The page header shows the profile name up to its first space:
    the shown word contains no space, the name starts with it, and what
    follows in the name, if anything, starts with a space. *)
Theorem headerName_first_word (name : string) :
  ¬ has " "%char (headerName name) ∧
  ∃ rest, name = headerName name +:+ rest ∧
          (rest = EmptyString ∨ ∃ rest', rest = String " " rest') ∧
          (¬ has " "%char name → headerName name = name).
Proof.
  unfold headerName. destruct (Js.split " " name) as [|y ys] eqn:E.
  { destruct (split_nonempty _ _ E). }
  cbn [head default]. split.
  - apply (split_no_sep " " name). rewrite E. left.
  - destruct (split_head _ _ _ _ E) as (post & Hname & Hnil & Hcons).
    exists post. split; [done|]. destruct ys as [|z zs].
    + rewrite (Hnil eq_refl) in *. split; [by left|]. intros _.
      by rewrite Hname, append_empty_r.
    + destruct (Hcons ltac:(done)) as [rest' ->]. split; [right; by eexists|].
      intros Hno. destruct Hno. rewrite Hname, has_append. right. by left.
Qed.

(** X23. Opening a project for editing fills the form with the project's
    five fields and its id, an empty string standing for a missing one, so
    that a submit without any change writes these same values back. *)
Theorem edit_form_round_trip (p : Project) :
  let f := ProjectForm.load (Some p) in
  ProjectForm.id f = default EmptyString (fields p !! "id"%string) ∧
  ProjectForm.submissionError f = None ∧
  ∀ k, k ∈ FORM_KEYS →
       ProjectForm.data f !! k = Some (default EmptyString (fields p !! k)).
Proof.
  assert (Hfield : ∀ k, ProjectForm.field (Some p) k
                        = default EmptyString (fields p !! k)).
  { intros k. unfold ProjectForm.field, Js.or_else. cbn [mbind option_bind].
    destruct (fields p !! k) as [[|c v]|]; done. }
  cbn zeta. split; [apply Hfield|]. split; [done|].
  intros k Hk. destruct (lookup_data (ProjectForm.load (Some p)))
    as (H1 & H2 & H3 & H4 & H5 & _).
  unfold FORM_KEYS in Hk. rewrite <- !Hfield.
  repeat (apply elem_of_cons in Hk as [-> | Hk]; [done|]).
  by apply elem_of_nil in Hk.
Qed.

(** ** Page metadata *)

Lemma selects_content k m c :
  selects k {| Seo.name := Seo.name m; Seo.property := Seo.property m; Seo.content := c |}
  = selects k m.
Proof. by destruct k. Qed.

Lemma update_unfold k c d :
  update k c d
  = if existsb (selects k) (Seo.metas d) then Seo.setContent (selects k) c d
    else Seo.appendToHead (created k c) d.
Proof. by destruct k. Qed.

Lemma selects_created k k' c : selects k (created k' c) = bool_decide (k = k').
Proof.
  destruct k as [n|p], k' as [n'|p']; cbn; unfold Seo.named, Seo.withProperty; cbn;
    repeat case_bool_decide; congruence.
Qed.

Lemma setFirst_attrs sel c l : attrs <$> Seo.setFirst sel c l = attrs <$> l.
Proof.
  induction l as [|m l IH]; [done|]. cbn. destruct (sel m); cbn; [done|].
  by rewrite IH.
Qed.

Lemma setFirst_absent sel c l : existsb sel l = false → Seo.setFirst sel c l = l.
Proof.
  induction l as [|m l IH]; [done|]. cbn. destruct (sel m); [done|].
  intros H. by rewrite IH.
Qed.

(** Setting the content of the element [querySelector] finds, seen on the
    elements in document order. *)
Lemma metas_setContent sel c d :
  Seo.metas (Seo.setContent sel c d) = Seo.setFirst sel c (Seo.metas d).
Proof.
  unfold Seo.setContent, Seo.metas. destruct d as [ti h b]. cbn.
  induction h as [|m h IH]; [done|]. cbn. destruct (sel m); cbn; [done|].
  destruct (existsb sel h); cbn in *; by rewrite IH.
Qed.

Lemma metas_appendToHead m d :
  Seo.metas (Seo.appendToHead m d) = Seo.head d ++ m :: Seo.body d.
Proof. unfold Seo.metas. cbn. by rewrite <- app_assoc. Qed.

Lemma existsb_setFirst k sel c l :
  existsb (selects k) (Seo.setFirst sel c l) = existsb (selects k) l.
Proof.
  induction l as [|m l IH]; [done|]. cbn. destruct (sel m); cbn.
  - by rewrite selects_content.
  - by rewrite IH.
Qed.

Lemma contentOf_setFirst_same k c l :
  existsb (selects k) l = true →
  contentOf (selects k) (Seo.setFirst (selects k) c l) = Some c.
Proof.
  induction l as [|m l IH]; [done|]. cbn. destruct (selects k m) eqn:Hm; cbn.
  - intros _. unfold contentOf. cbn. by rewrite selects_content, Hm.
  - intros H. unfold contentOf in *. cbn. by rewrite Hm, IH.
Qed.

Lemma selects_clash k k' m :
  Seo.name m = None ∨ Seo.property m = None →
  selects k m = true → selects k' m = true → k = k'.
Proof.
  destruct k as [n|p], k' as [n'|p']; cbn; unfold Seo.named, Seo.withProperty;
    rewrite !bool_decide_eq_true; intros [?|?] ? ?; congruence.
Qed.

Lemma contentOf_setFirst_other k k' c l :
  k ≠ k' → plain l →
  contentOf (selects k) (Seo.setFirst (selects k') c l) = contentOf (selects k) l.
Proof.
  intros Hne Hplain. induction Hplain as [|m l Hm _ IH]; [done|].
  cbn. destruct (selects k' m) eqn:Hk'; unfold contentOf in *; cbn.
  - rewrite selects_content. destruct (selects k m) eqn:Hk; [|done].
    destruct Hne. by apply (selects_clash k k' m).
  - destruct (selects k m); [done|]. apply IH.
Qed.

(** An element put between the head's elements and the rest is found when
    it is selected and none of the head's is. *)
Lemma contentOf_insert sel l x l' :
  contentOf sel (l ++ x :: l')
  = if existsb sel l then contentOf sel (l ++ l')
    else if sel x then Some (Seo.content x) else contentOf sel (l ++ l').
Proof.
  unfold contentOf. induction l as [|m l IH]; cbn.
  - by destruct (sel x).
  - destruct (sel m); [done|]. apply IH.
Qed.

Lemma contentOf_update_same k c d :
  contentOf (selects k) (Seo.metas (update k c d)) = Some c.
Proof.
  rewrite update_unfold. destruct (existsb (selects k) (Seo.metas d)) eqn:He.
  - rewrite metas_setContent. by apply contentOf_setFirst_same.
  - rewrite metas_appendToHead, contentOf_insert, selects_created,
      bool_decide_eq_true_2 by done.
    unfold Seo.metas in He. rewrite existsb_app in He.
    apply orb_false_iff in He as [-> _]. by destruct k.
Qed.

Lemma contentOf_update_other k k' c d :
  k ≠ k' → plain (Seo.metas d) →
  contentOf (selects k) (Seo.metas (update k' c d))
  = contentOf (selects k) (Seo.metas d).
Proof.
  intros Hne Hplain. rewrite update_unfold.
  destruct (existsb (selects k') (Seo.metas d)) eqn:He.
  - rewrite metas_setContent. by apply contentOf_setFirst_other.
  - rewrite metas_appendToHead, contentOf_insert, selects_created,
      bool_decide_eq_false_2 by done.
    by destruct (existsb (selects k) (Seo.head d)).
Qed.

Lemma plain_update k c d : plain (Seo.metas d) → plain (Seo.metas (update k c d)).
Proof.
  intros Hplain. rewrite update_unfold. destruct (existsb (selects k) (Seo.metas d)).
  - rewrite metas_setContent.
    induction Hplain as [|m l Hm Hl IH]; [constructor|]. cbn.
    destruct (selects k m); constructor; done.
  - rewrite metas_appendToHead. unfold Seo.metas, plain in *.
    apply Forall_app in Hplain as [Hh Hb]. apply Forall_app. split; [done|].
    constructor; [|done]. destruct k; cbn; auto.
Qed.

Lemma existsb_update k k' c d :
  existsb (selects k) (Seo.metas (update k' c d))
  = bool_decide (k = k') || existsb (selects k) (Seo.metas d).
Proof.
  rewrite update_unfold. destruct (existsb (selects k') (Seo.metas d)) eqn:He.
  - rewrite metas_setContent, existsb_setFirst.
    case_bool_decide as Hk; [|done]. subst. by rewrite He.
  - rewrite metas_appendToHead. unfold Seo.metas. rewrite !existsb_app. cbn.
    rewrite selects_created.
    destruct (existsb (selects k) (Seo.head d)), (bool_decide (k = k')); done.
Qed.

(** An update leaves the elements after the head as they are, but for the
    content of one, and adds to the head at its end only. *)
Lemma attrs_update k c d :
  attrs <$> Seo.head (update k c d)
  = (attrs <$> Seo.head d) ++
    (if existsb (selects k) (Seo.metas d) then [] else [attrs (created k c)]) ∧
  attrs <$> Seo.body (update k c d) = attrs <$> Seo.body d.
Proof.
  rewrite update_unfold. destruct (existsb (selects k) (Seo.metas d)).
  - unfold Seo.setContent. destruct (existsb (selects k) (Seo.head d)); cbn;
      by rewrite ?setFirst_attrs, app_nil_r.
  - cbn. by rewrite fmap_app.
Qed.

Lemma updates_snoc kcs kc d :
  updates (kcs ++ [kc]) d = update kc.1 kc.2 (updates kcs d).
Proof. unfold updates. by rewrite foldl_app. Qed.

Lemma plain_updates kcs d : plain (Seo.metas d) → plain (Seo.metas (updates kcs d)).
Proof.
  induction kcs as [|kc kcs IH] using rev_ind; [done|]. intros Hl.
  rewrite updates_snoc. by apply plain_update, IH.
Qed.

Lemma existsb_updates k kcs d :
  k ∈ kcs.*1 → existsb (selects k) (Seo.metas (updates kcs d)) = true.
Proof.
  induction kcs as [|kc kcs IH] using rev_ind; [by intros ?%elem_of_nil|].
  rewrite fmap_app, elem_of_app, updates_snoc, existsb_update. cbn.
  intros [Hin|Hin%list_elem_of_singleton].
  - by rewrite IH, orb_true_r.
  - by rewrite bool_decide_eq_true_2.
Qed.

Lemma existsb_updates_mono k kcs d :
  existsb (selects k) (Seo.metas d) = true →
  existsb (selects k) (Seo.metas (updates kcs d)) = true.
Proof.
  intros Hl. induction kcs as [|kc kcs IH] using rev_ind; [done|].
  by rewrite updates_snoc, existsb_update, IH, orb_true_r.
Qed.

Lemma attrs_updates_prefix kcs d :
  (attrs <$> Seo.head d) `prefix_of` (attrs <$> Seo.head (updates kcs d)) ∧
  attrs <$> Seo.body (updates kcs d) = attrs <$> Seo.body d ∧
  length (Seo.head (updates kcs d)) ≤ length (Seo.head d) + length kcs.
Proof.
  induction kcs as [|kc kcs (IHp & IHb & IHl)] using rev_ind.
  - split; [done|]. split; [done|]. cbn. lia.
  - rewrite updates_snoc.
    destruct (attrs_update kc.1 kc.2 (updates kcs d)) as [Hh Hb].
    split; [|split].
    + rewrite Hh. by apply prefix_app_r.
    + by rewrite Hb.
    + pose proof (f_equal length Hh) as Hlen.
      rewrite length_app, !length_fmap in Hlen. rewrite Hlen, length_app.
      destruct (existsb _ _); cbn; lia.
Qed.

(** Updates that find their elements add none. *)
Lemma attrs_updates_again kcs d :
  (∀ k, k ∈ kcs.*1 → existsb (selects k) (Seo.metas d) = true) →
  attrs <$> Seo.head (updates kcs d) = attrs <$> Seo.head d.
Proof.
  induction kcs as [|kc kcs IH] using rev_ind; [done|]. intros Hall.
  rewrite fmap_app in Hall. rewrite updates_snoc.
  destruct (attrs_update kc.1 kc.2 (updates kcs d)) as [-> _].
  assert (Hpresent : existsb (selects kc.1) (Seo.metas (updates kcs d)) = true).
  { apply existsb_updates_mono, Hall. set_solver. }
  rewrite Hpresent, app_nil_r. apply IH. intros k Hk. apply Hall. set_solver.
Qed.

Lemma contentOf_updates kcs d k c :
  NoDup kcs.*1 → plain (Seo.metas d) → (k, c) ∈ kcs →
  contentOf (selects k) (Seo.metas (updates kcs d)) = Some c.
Proof.
  induction kcs as [|kc kcs IH] using rev_ind; [by intros _ _ ?%elem_of_nil|].
  rewrite fmap_app, updates_snoc. intros [Hnd [Hfresh _]]%NoDup_app Hl.
  rewrite elem_of_app, list_elem_of_singleton. intros [Hin|Heq].
  - rewrite contentOf_update_other; [by apply IH|..|by apply plain_updates].
    intros Hk. apply (Hfresh k); [|rewrite Hk; cbn; left].
    apply list_elem_of_fmap. by exists (k, c).
  - subst kc. apply contentOf_update_same.
Qed.

Lemma title_update k c d : Seo.title (update k c d) = Seo.title d.
Proof.
  rewrite update_unfold. unfold Seo.setContent.
  by destruct (existsb (selects k) (Seo.metas d)), (existsb (selects k) (Seo.head d)).
Qed.

(** The keys the effect looks up do not depend on the name and address. *)
Lemma seoUpdates_keys n h :
  (seoUpdates n h).*1
  = [ByName "description"; ByProperty "og:title"; ByProperty "og:description";
     ByProperty "og:url"; ByProperty "og:type"]%string.
Proof. done. Qed.

Lemma seoUpdates_NoDup n h : NoDup (seoUpdates n h).*1.
Proof.
  rewrite seoUpdates_keys.
  repeat (apply NoDup_cons; split;
          [rewrite ?elem_of_cons, elem_of_nil; intros H; by repeat destruct H as [H|H]|]).
  apply NoDup_nil_2.
Qed.

Lemma seoEffect_updates n h d :
  Seo.seoEffect n h d
  = updates (seoUpdates n h)
      {| Seo.title := Seo.pageTitle n; Seo.head := Seo.head d; Seo.body := Seo.body d |}.
Proof. done. Qed.

(** X24. However often the metadata effect runs and whatever the document
    held before, it never removes or reorders a [meta] element: the
    elements after the head stay as they are but for their content, the
    head's elements stay in place and at most five are added, at the end
    of the head; and a later run, for whatever name and address, adds
    none: the elements do not pile up.  It sets the title from the profile
    name; the [og:type] element that [querySelector] finds reads
    "website"; and in a document where no element carries both a [name]
    and a [property], each of the five elements it looks up holds the
    content it wrote. *)
Theorem seoEffect_keeps_one_element_per_key (n h n' h' : string) (d : Seo.Document) :
  let d1 := Seo.seoEffect n h d in
  let d2 := Seo.seoEffect n' h' d1 in
  Seo.title d2 = Seo.pageTitle n' ∧
  (attrs <$> Seo.head d) `prefix_of` (attrs <$> Seo.head d1) ∧
  attrs <$> Seo.body d1 = attrs <$> Seo.body d ∧
  length (Seo.head d1) ≤ length (Seo.head d) + 5 ∧
  attrs <$> Seo.head d2 = attrs <$> Seo.head d1 ∧
  attrs <$> Seo.body d2 = attrs <$> Seo.body d1 ∧
  contentOf (Seo.withProperty "og:type") (Seo.metas d2) = Some "website"%string ∧
  (plain (Seo.metas d) →
   ∀ k c, (k, c) ∈ seoUpdates n' h' →
          contentOf (selects k) (Seo.metas d2) = Some c).
Proof.
  cbn zeta.
  set (d1 := Seo.seoEffect n h d).
  pose proof (seoEffect_updates n h d) as H1. fold d1 in H1.
  rewrite (seoEffect_updates n' h' d1).
  set (e := {| Seo.title := Seo.pageTitle n; Seo.head := Seo.head d;
               Seo.body := Seo.body d |}) in H1.
  set (e1 := {| Seo.title := Seo.pageTitle n'; Seo.head := Seo.head d1;
                Seo.body := Seo.body d1 |}).
  destruct (attrs_updates_prefix (seoUpdates n h) e) as (Hp & Hb & Hl).
  rewrite <- H1 in Hp, Hb, Hl.
  destruct (attrs_updates_prefix (seoUpdates n' h') e1) as (_ & Hb' & _).
  split; [|split; [done|split; [done|split; [done|split; [|split; [done|split]]]]]].
  - unfold updates, seoUpdates. cbn [foldl fst snd]. by rewrite !title_update.
  - refine (attrs_updates_again (seoUpdates n' h') e1 _). intros k Hk.
    change (Seo.metas e1) with (Seo.metas d1). rewrite H1.
    apply existsb_updates. by rewrite seoUpdates_keys in *.
  - apply (contentOf_update_same (ByProperty "og:type")).
  - intros Hplain k c Hin. apply contentOf_updates; [| |done].
    + apply seoUpdates_NoDup.
    + change (Seo.metas e1) with (Seo.metas d1). rewrite H1.
      by apply plain_updates.
Qed.

(** ** The projects section *)

(** X25. When a re-query fails for a viewer whose identity is ready, the
    projects section shows the error block and still the cards of the list
    loaded before, filtered by the active tag; the tag bar and the
    empty-list message are hidden. *)
Theorem failed_refresh_keeps_cards (client : Client) (uid : string) (a : Auth)
    (r : Repo) (u : Ui) :
  isAuthReady a = true → queryFailed (client (fetchRequest uid)) →
  projectsSection a (fetchProjects client uid r) u
  = {| showsLoading := false; shownError := Some LOAD_FAILED;
       showsTagFilter := false; emptyMessage := None;
       cards := filteredProjects (projects r) (activeTag u) |}.
Proof.
  intros Hready Hfail. unfold projectsSection, initialLoading, fetchProjects.
  rewrite Hready.
  destruct (awaited (client (fetchRequest uid))) as [[data|]|] eqn:E;
    [by destruct (Hfail data)|done..].
Qed.

Lemma failed_refresh_keeps_cards_witness :
  let p := ofRow {["technologies"%string := "PHP"%string]} in
  let a := ownerAuth "owner-1" in
  let v := projectsSection a
             (fetchProjects refusing "owner-1" (setProjects [p] initialRepo)) initialUi in
  isAuthReady a = true ∧ queryFailed (refusing (fetchRequest "owner-1")) ∧
  cards v = [p] ∧ shownError v = Some LOAD_FAILED ∧ showsTagFilter v = false.
Proof.
  intros p a v.
  assert (Hfail : queryFailed (refusing (fetchRequest "owner-1")))
    by (intros data; discriminate).
  split; [reflexivity|]. split; [exact Hfail|].
  unfold v.
  rewrite (failed_refresh_keeps_cards refusing "owner-1" a
             (setProjects [p] initialRepo) initialUi eq_refl Hfail).
  repeat split.
Defined.

Lemma filteredProjects_nil_no_tag ps tag :
  Js.truthy_opt tag = false → filteredProjects ps tag = ps.
Proof. destruct tag as [t|]; [|done]. cbn. by intros ->. Qed.

(** X26. In the projects section the loading line excludes the error
    block, the tag bar and the empty-list message; the error block excludes
    the tag bar and the empty-list message; the tag bar shows only for a
    non-empty list.  "No projects found" shows only when the list is empty,
    "No projects match" only when a tag is active that no project of the
    list contains; and while the active tag is one of the tag bar, no
    empty-list message shows. *)
Theorem projectsSection_blocks (a : Auth) (r : Repo) (u : Ui) :
  let v := projectsSection a r u in
  (showsLoading v = true →
   shownError v = None ∧ showsTagFilter v = false ∧ emptyMessage v = None) ∧
  (is_Some (shownError v) →
   showsLoading v = false ∧ showsTagFilter v = false ∧ emptyMessage v = None) ∧
  (showsTagFilter v = true → projects r ≠ []) ∧
  (emptyMessage v = Some NO_PROJECTS → projects r = []) ∧
  (emptyMessage v = Some NO_MATCH →
   ∃ T, activeTag u = Some T ∧ T ≠ EmptyString ∧ ∀ p, p ∈ projects r → ¬ hasTag T p) ∧
  (∀ T, activeTag u = Some T → T ∈ allTags (projects r) → emptyMessage v = None).
Proof.
  cbn zeta. unfold projectsSection. cbn.
  destruct (initialLoading a r) eqn:Hload; cbn.
  { repeat split; try done; by intros [? [=]]. }
  destruct (Js.truthy_opt (error r)) eqn:Herr; cbn.
  { repeat split; try done; by intros [? [=]]. }
  split; [done|]. split; [by intros [? [=]]|]. split.
  { destruct (projects r); [done|]. done. }
  destruct (length (filteredProjects (projects r) (activeTag u)) =? 0) eqn:Hlen;
    [|by repeat split].
  apply Nat.eqb_eq, length_zero_iff_nil in Hlen.
  destruct (Js.truthy_opt (activeTag u)) eqn:Htag.
  - split; [done|]. split.
    + intros _. destruct (activeTag u) as [T|]; [|done]. exists T.
      split; [done|]. cbn in Htag. apply truthy_true in Htag. split; [done|].
      intros p Hp Hhas.
      assert (Hin : p ∈ filteredProjects (projects r) (Some T))
        by by apply elem_of_filteredProjects.
      rewrite Hlen in Hin. by apply elem_of_nil in Hin.
    + intros T HT Hbar. rewrite HT in Hlen.
      by destruct (bar_tag_filter_nonempty _ _ Hbar).
  - rewrite filteredProjects_nil_no_tag in Hlen by done. split; [done|].
    split; [done|]. intros T HT Hbar. rewrite Hlen in Hbar.
    apply elem_of_allTags in Hbar as (_ & p & _ & _ & Hp & _).
    by apply elem_of_nil in Hp.
Qed.

Lemma mutations_leave_list_alone_witness :
  let r' := deleteProject (Some refusing) (Some "owner-1"%string) "7"
              (setProjects [ofRow ∅] initialRepo) in
  projects r' = [ofRow ∅] ∧ loading r' = true.
Proof.
  intros r'.
  destruct (mutations_leave_list_alone (Some refusing) (Some "owner-1"%string)
              (setProjects [ofRow ∅] initialRepo) ∅ ∅ "7" r')
    as (Hp & Hl & _).
  - unfold r'. set_solver.
  - split; [exact Hp|exact Hl].
Defined.

Lemma debounced_create_not_ready_witness :
  let r' := Debounce.world
              (Debounce.elapse (addProject None (Some "owner-1"%string)) 1000
                 (Debounce.invokeAll (addProject None (Some "owner-1"%string))
                    ADD_DEBOUNCE_MS [(0, movieTicketBooking); (100, hangmanApp)]
                    (Debounce.fresh initialRepo))) in
  ((None : option Client) = None ∨ Js.truthy_opt (Some "owner-1"%string) = false) ∧
  sent r' = [].
Proof.
  intros r'.
  assert (H : (None : option Client) = None ∨
              Js.truthy_opt (Some "owner-1"%string) = false) by (left; reflexivity).
  split; [exact H|].
  destruct (debounced_create_not_ready None (Some "owner-1"%string) initialRepo
              [(0, movieTicketBooking); (100, hangmanApp)] 1000 H) as [_ Hs].
  exact Hs.
Defined.
